(** * MAS coordinator: general-purpose gateway and final synthesis

    A shallow embedding of [task/coordination/gpa.py] (class [GPAGateway])
    and [task/agent.py] (class [MASCoordinator]).

    Python objects are modelled as follows.
    - pydantic models ([Message], [CustomContent], the streamed chunk types)
      are records; an [Optional] field is an [option], with [None] for the
      Python [None].  [m.dict(exclude_none=True)] drops exactly the fields
      that are [None], so the dict form of a message is a record with the
      same optional fields ([MessageDict]).
    - the opaque [state] and the attachments are plain JSON-like values
      ([pyval]); they are carried around verbatim.
    - exceptions are values of [pyerr] in the [result] monad.
    - calls on the caller-visible [Choice] and [Stage] objects are recorded,
      in program order, as a list of [event]s. *)

From stdpp Require Import base option list strings pretty.
From Stdlib Require Import ZArith Lia.

Local Open Scope Z_scope.

(** ** Python values *)

(** JSON-like values: [None], booleans, integers, strings, lists and
    dicts (in insertion order). *)

#[local] Unset Elimination Schemes.
Inductive pyval : Type :=
| PNone
| PBool (b : bool)
| PInt (n : Z)
| PStr (s : string)
| PList (l : list pyval)
| PDict (d : list (string * pyval)).
#[local] Set Elimination Schemes.

Inductive pyerr : Type :=
| AttributeError (what : string)
| TypeError (what : string)
| KeyError (key : string)
| IndexError
| ValueError (msg : string).

Inductive result (A : Type) : Type :=
| Ok (a : A)
| Raise (e : pyerr).
Arguments Ok {A} a.
Arguments Raise {A} e.

Definition rbind {A B} (r : result A) (k : A → result B) : result B :=
  match r with
  | Ok a => k a
  | Raise e => Raise e
  end.

Notation "'let*' x ':=' r 'in' k" := (rbind r (fun x => k))
  (at level 10, x pattern, r at level 100, k at level 200).

(** The line feed, ["\n"] in the Python sources. *)
Definition LF : string := String (Ascii.ascii_of_nat 10) EmptyString.

(** Python truth value testing. *)
Definition str_truthy (s : string) : bool :=
  match s with
  | EmptyString => false
  | String _ _ => true
  end.

Definition truthy (v : pyval) : bool :=
  match v with
  | PNone => false
  | PBool b => b
  | PInt n => negb (n =? 0)
  | PStr s => str_truthy s
  | PList l => match l with [] => false | _ :: _ => true end
  | PDict d => match d with [] => false | _ :: _ => true end
  end.

(** [o] where [o : Optional[str]]: truthy when a non-empty string. *)
Definition opt_str_truthy (o : option string) : bool :=
  match o with
  | Some s => str_truthy s
  | None => false
  end.

(** [str(o)] as an f-string renders an [Optional[str]]. *)
Definition py_str (o : option string) : string :=
  match o with
  | Some s => s
  | None => "None"
  end.

Fixpoint assoc_get {V} (k : string) (d : list (string * V)) : option V :=
  match d with
  | [] => None
  | (k', v) :: d' => if decide (k = k') then Some v else assoc_get k d'
  end.

(** [v.get(k)]: only a dict has the method; a missing key gives [None]. *)
Definition py_get (v : pyval) (k : string) : result pyval :=
  match v with
  | PDict d => Ok (default PNone (assoc_get k d))
  | _ => Raise (AttributeError "get")
  end.

(** [l[i]] with Python's negative indices. *)
Definition py_index {A} (l : list A) (i : Z) : result A :=
  let n := Z.of_nat (length l) in
  let j := if i <? 0 then i + n else i in
  if (j <? 0) || (n <=? j) then Raise IndexError
  else match l !! Z.to_nat j with
       | Some a => Ok a
       | None => Raise IndexError
       end.

(** ** The SDK data model *)

Inductive Role := SYSTEM | USER | ASSISTANT.

Global Instance Role_eq_dec : EqDecision Role.
Proof. solve_decision. Defined.

(** Attachments and the stage records stored on a message are opaque
    structured payloads. *)
Definition Attachment := pyval.

Record CustomContent := {
  cc_stages : option (list pyval);
  cc_attachments : option (list Attachment);
  cc_state : pyval;
}.

Record Message := {
  msg_role : Role;
  msg_content : option string;
  msg_custom_content : option CustomContent;
}.

(** The dict built by [msg.dict(exclude_none=True)] or by a dict literal
    with the keys ["role"], ["content"] and ["custom_content"]; a key that
    is absent or bound to [None] is [None] here. *)
Record MessageDict := {
  d_role : Role;
  d_content : option string;
  d_custom_content : option CustomContent;
}.

Definition to_dict (m : Message) : MessageDict :=
  {| d_role := msg_role m;
     d_content := msg_content m;
     d_custom_content := msg_custom_content m |}.

Record Request := {
  req_messages : list Message;
}.

(** ** Streamed chunks *)

(** The chunk types of the client library.  The delta of a choice is a
    model object (truthy in [if delta and delta.content]); the update of a
    nested section always names its index. *)

Record StageUpdate := {
  su_index : Z;
  su_name : option string;
  su_content : option string;
  su_attachments : option (list Attachment);
  su_status : option string;
}.

Record DeltaCustomContent := {
  dcc_attachments : option (list Attachment);
  dcc_state : pyval;
  dcc_stages : option (list StageUpdate);
}.

Record Delta := {
  delta_content : option string;
  delta_custom_content : option DeltaCustomContent;
}.

Record ChunkChoice := {
  choice_delta : Delta;
}.

Record Chunk := {
  chunk_choices : list ChunkChoice;
}.

(** ** Caller-visible effects *)

(** A stage is either the [stage] argument of the agent call (the section
    of the call itself) or the [h]-th stage opened during the call. *)
Inductive StageRef :=
| CallStage
| Nested (h : nat).

Global Instance StageRef_eq_dec : EqDecision StageRef.
Proof. solve_decision. Defined.

Inductive event :=
| AppendContent (r : StageRef) (s : string)
| AddAttachment (r : StageRef) (a : Attachment)
| OpenStage (h : nat) (name : option string)
| CloseStageSafely (r : StageRef)
| ChoiceAppendContent (s : string)
| ChoiceAddAttachment (a : Attachment)
| ChoiceSetState (v : pyval).

(** ** The general-purpose gateway ([task/coordination/gpa.py]) *)

Module GPAGateway.

Definition _IS_GPA : string := "is_gpa".
Definition _GPA_MESSAGES : string := "gpa_messages".

(** The dict literal handed to [choice.set_state]. *)
Definition exported_state (inner : pyval) : pyval :=
  PDict [(_IS_GPA, PBool true); (_GPA_MESSAGES, inner)].

(** *** [__prepare_gpa_messages] *)

(** Body of the [for i, msg in enumerate(request.messages)] loop: the
    dicts appended to [res_messages] for one message. *)
Definition restore_message (messages : list Message) (i : nat) (msg : Message)
  : result (list MessageDict) :=
  if decide (msg_role msg = ASSISTANT) then
    match msg_custom_content msg with
    | Some cc =>
        if truthy (cc_state cc) then
          let msg_state := cc_state cc in
          let* is_gpa := py_get msg_state _IS_GPA in
          if truthy is_gpa then
            let* prev := py_index messages (Z.of_nat i - 1) in
            let* inner := py_get msg_state _GPA_MESSAGES in
            let copied_msg :=
              {| msg_role := msg_role msg;
                 msg_content := msg_content msg;
                 msg_custom_content :=
                   Some {| cc_stages := cc_stages cc;
                           cc_attachments := cc_attachments cc;
                           cc_state := inner |} |} in
            Ok [to_dict prev; to_dict copied_msg]
          else Ok []
        else Ok []
    | None => Ok []
    end
  else Ok [].

Fixpoint restore_history (messages : list Message) (i : nat) (rest : list Message)
  : result (list MessageDict) :=
  match rest with
  | [] => Ok []
  | msg :: rest' =>
      let* here := restore_message messages i msg in
      let* later := restore_history messages (S i) rest' in
      Ok (here ++ later)
  end.

Definition prepare_gpa_messages (request : Request)
    (additional_instructions : option string) : result (list MessageDict) :=
  let* res_messages := restore_history (req_messages request) 0 (req_messages request) in
  let* last_user_msg := py_index (req_messages request) (-1) in
  let custom_content := msg_custom_content last_user_msg in
  if opt_str_truthy additional_instructions then
    Ok (res_messages ++
        [ {| d_role := USER;
             d_content := Some (py_str (msg_content last_user_msg) +:+ LF +:+ LF
                              +:+ py_str additional_instructions);
             d_custom_content := custom_content |} ])
  else
    Ok (res_messages ++ [to_dict last_user_msg]).

(** A message of the history that [__prepare_gpa_messages] can read: an
    assistant message with a truthy state must hold a dict. *)
Definition readable (m : Message) : bool :=
  match msg_custom_content m with
  | Some cc =>
      match cc_state cc with
      | PDict _ => true
      | v => negb (truthy v) || negb (bool_decide (msg_role m = ASSISTANT))
      end
  | None => true
  end.

(** What [restore_message] rebuilds from an assistant message that carries
    the state exported by this gateway. *)
Definition rebuilt (m : Message) (cc : CustomContent) (inner : pyval) : MessageDict :=
  {| d_role := ASSISTANT;
     d_content := msg_content m;
     d_custom_content :=
       Some {| cc_stages := cc_stages cc;
               cc_attachments := cc_attachments cc;
               cc_state := inner |} |}.

(** *** The aggregation loop of [response] *)

(** The local variables of the loop: [content],
    [result_custom_content] and [stages_map].  [stages_map] is a Python
    dict, kept in insertion order; a stage object is named by its handle,
    and [st_opened] counts the stages opened so far. *)
Record AggState := {
  st_content : string;
  st_attachments : list Attachment;
  st_state : pyval;
  st_stages_map : list (Z * nat);
  st_opened : nat;
}.

Definition init_state : AggState :=
  {| st_content := "";
     st_attachments := [];
     st_state := PNone;
     st_stages_map := [];
     st_opened := 0 |}.

Fixpoint stages_map_get (idx : Z) (m : list (Z * nat)) : option nat :=
  match m with
  | [] => None
  | (k, h) :: m' => if decide (idx = k) then Some h else stages_map_get idx m'
  end.

Definition opt_list_truthy {A} (o : option (list A)) : bool :=
  match o with
  | Some (_ :: _) => true
  | _ => false
  end.

Definition is_completed (status : option string) : bool :=
  match status with
  | Some s => bool_decide (s = "completed")
  | None => false
  end.

(** Body of [for stg in stages]: the new loop state and the calls made.
    A [Stage] object is truthy, so [stages_map.get(idx)] is falsy exactly
    when [idx] is not recorded.  Building an [Attachment] from the dict
    of the update keeps the opaque payload as it is. *)
Definition process_stage_update (st : AggState) (stg : StageUpdate)
  : AggState * list event :=
  let idx := su_index stg in
  match stages_map_get idx (st_stages_map st) with
  | Some opened_stg =>
      if opt_str_truthy (su_content stg) then
        (st, [AppendContent (Nested opened_stg) (default "" (su_content stg))])
      else if opt_list_truthy (su_attachments stg) then
        (st, AddAttachment (Nested opened_stg) <$> default [] (su_attachments stg))
      else if is_completed (su_status stg) then
        (st, [CloseStageSafely (Nested opened_stg)])
      else (st, [])
  | None =>
      let h := st_opened st in
      ({| st_content := st_content st;
          st_attachments := st_attachments st;
          st_state := st_state st;
          st_stages_map := st_stages_map st ++ [(idx, h)];
          st_opened := S h |},
       [OpenStage h (su_name stg)])
  end.

Fixpoint process_stages (st : AggState) (stages : list StageUpdate)
  : AggState * list event :=
  match stages with
  | [] => (st, [])
  | stg :: stages' =>
      let '(st1, ev1) := process_stage_update st stg in
      let '(st2, ev2) := process_stages st1 stages' in
      (st2, ev1 ++ ev2)
  end.

(** [if cc := delta.custom_content: ...] *)
Definition process_custom_content (st : AggState) (cc : DeltaCustomContent)
  : AggState * list event :=
  let st1 :=
    if opt_list_truthy (dcc_attachments cc) then
      {| st_content := st_content st;
         st_attachments := st_attachments st ++ default [] (dcc_attachments cc);
         st_state := st_state st;
         st_stages_map := st_stages_map st;
         st_opened := st_opened st |}
    else st in
  let st2 :=
    if truthy (dcc_state cc) then
      {| st_content := st_content st1;
         st_attachments := st_attachments st1;
         st_state := dcc_state cc;
         st_stages_map := st_stages_map st1;
         st_opened := st_opened st1 |}
    else st1 in
  if opt_list_truthy (dcc_stages cc) then
    process_stages st2 (default [] (dcc_stages cc))
  else (st2, []).

Definition process_delta (st : AggState) (delta : Delta) : AggState * list event :=
  let '(st1, ev1) :=
    if opt_str_truthy (delta_content delta) then
      let c := default "" (delta_content delta) in
      ({| st_content := st_content st +:+ c;
          st_attachments := st_attachments st;
          st_state := st_state st;
          st_stages_map := st_stages_map st;
          st_opened := st_opened st |},
       [AppendContent CallStage c])
    else (st, []) in
  match delta_custom_content delta with
  | Some cc =>
      let '(st2, ev2) := process_custom_content st1 cc in
      (st2, ev1 ++ ev2)
  | None => (st1, ev1)
  end.

(** Body of [async for chunk in chunks]. *)
Definition process_chunk (st : AggState) (chunk : Chunk) : AggState * list event :=
  match chunk_choices chunk with
  | c :: _ => process_delta st (choice_delta c)
  | [] => (st, [])
  end.

Fixpoint read_chunks (st : AggState) (chunks : list Chunk) : AggState * list event :=
  match chunks with
  | [] => (st, [])
  | chunk :: chunks' =>
      let '(st1, ev1) := process_chunk st chunk in
      let '(st2, ev2) := read_chunks st1 chunks' in
      (st2, ev1 ++ ev2)
  end.

Record Response := {
  res_message : Message;
  res_events : list event;
  res_final : AggState;
}.

(** Lines 41-93 of [response]: the loop over the stream, the closing of
    the stages, the attachments and the exported state. *)
Definition response_stream (chunks : list Chunk) : Response :=
  let '(st, ev) := read_chunks init_state chunks in
  {| res_message :=
       {| msg_role := ASSISTANT;
          msg_content := Some (st_content st);
          msg_custom_content := None |};
     res_events :=
       ev
       ++ ((fun kv => CloseStageSafely (Nested kv.2)) <$> st_stages_map st)
       ++ (ChoiceAddAttachment <$> st_attachments st)
       ++ [ChoiceSetState (exported_state (st_state st))];
     res_final := st |}.

(** *** Reading a stream and its effects *)

(** The fragments of a stream, in arrival order: the delta of the first
    choice of every chunk that has choices. *)
Definition fragments (chunks : list Chunk) : list Delta :=
  omap (λ chunk, choice_delta <$> head (chunk_choices chunk)) chunks.

(** The content field of every fragment that carries one. *)
Definition fragment_contents (chunks : list Chunk) : list string :=
  omap delta_content (fragments chunks).

(** The nested-section updates of a stream, in arrival order. *)
Definition stage_updates (chunks : list Chunk) : list StageUpdate :=
  fragments chunks ≫= λ delta,
    match delta_custom_content delta with
    | Some cc => default [] (dcc_stages cc)
    | None => []
    end.

(** The texts appended to the stage of the call itself. *)
Definition call_stage_appends (ev : list event) : list string :=
  omap (λ e, match e with AppendContent CallStage s => Some s | _ => None end) ev.

(** The calls that concern the stages opened during the call. *)
Definition on_nested (e : event) : bool :=
  match e with
  | AppendContent (Nested _) _ | AddAttachment (Nested _) _
  | OpenStage _ _ | CloseStageSafely (Nested _) => true
  | _ => false
  end.

Definition nested_events (ev : list event) : list event := filter on_nested ev.

Inductive SectionStatus := SectionOpen | SectionCompleted.

Global Instance SectionStatus_eq_dec : EqDecision SectionStatus.
Proof. solve_decision. Defined.

(** Modelled from the spec: [StageProcessor] of [task/stage_util.py], which
    is not part of the sources at hand.  [open_stage] opens a new
    caller-visible section; [close_stage_safely] closes a section, is
    idempotent and never fails, also on a section that is not open.
    [status_step] is the status of section [h] after one more call. *)
Definition status_step (h : nat) (status : option SectionStatus) (e : event)
  : option SectionStatus :=
  match e with
  | OpenStage h' _ => if decide (h' = h) then Some SectionOpen else status
  | CloseStageSafely (Nested h') =>
      if decide (h' = h) then
        match status with
        | Some _ => Some SectionCompleted
        | None => None
        end
      else status
  | _ => status
  end.

Definition section_status (ev : list event) (h : nat) : option SectionStatus :=
  foldl (status_step h) None ev.

(** The calls made after the stream has ended. *)
Definition closing_events (st : AggState) : list event :=
  ((λ kv, CloseStageSafely (Nested kv.2)) <$> st_stages_map st)
  ++ (ChoiceAddAttachment <$> st_attachments st)
  ++ [ChoiceSetState (exported_state (st_state st))].

(** The part of the loop state that the nested-section updates leave alone. *)
Definition same_answer (st st' : AggState) : Prop :=
  st_content st' = st_content st
  ∧ st_attachments st' = st_attachments st
  ∧ st_state st' = st_state st.

(** Every handle below [st_opened] names a stage of [stages_map]. *)
Definition handles_recorded (st : AggState) : Prop :=
  ∀ h, (h < st_opened st)%nat → h ∈ (st_stages_map st).*2.

(** A step of the loop, seen from section [h]: it has a status after the
    step exactly when its handle has been given out. *)
Definition tracks_opened (st st' : AggState) (ev : list event) : Prop :=
  (handles_recorded st → handles_recorded st')
  ∧ ∀ h s, (is_Some s ↔ (h < st_opened st)%nat) →
           (is_Some (foldl (status_step h) s ev) ↔ (h < st_opened st')%nat).

(** *** The nested-section updates, in the words of the specification *)

(** An update with its payload removed: the index and the name only. *)
Definition bare (u : StageUpdate) : StageUpdate :=
  {| su_index := su_index u;
     su_name := su_name u;
     su_content := None;
     su_attachments := None;
     su_status := None |}.

(** The one kind of payload that an update for a recorded index applies:
    its content if it carries some, otherwise its attachments if it
    carries some, otherwise the completed status if it carries it. *)
Inductive payload :=
| PayContent (c : string)
| PayAttachments (l : list Attachment)
| PayCompleted
| PayNothing.

Definition applied_payload (u : StageUpdate) : payload :=
  match su_content u with
  | Some (String a c) => PayContent (String a c)
  | _ =>
      match su_attachments u with
      | Some (a :: l) => PayAttachments (a :: l)
      | _ =>
          if decide (su_status u = Some "completed") then PayCompleted
          else PayNothing
      end
  end.

Definition payload_events (h : nat) (p : payload) : list event :=
  match p with
  | PayContent c => [AppendContent (Nested h) c]
  | PayAttachments l => AddAttachment (Nested h) <$> l
  | PayCompleted => [CloseStageSafely (Nested h)]
  | PayNothing => []
  end.

Definition state_after (st : AggState) (us : list StageUpdate) : AggState :=
  (process_stages st us).1.

Definition events_of (st : AggState) (us : list StageUpdate) : list event :=
  (process_stages st us).2.

(** The handles of the stages opened by a list of calls. *)
Definition opened_handles (ev : list event) : list nat :=
  omap (λ e, match e with OpenStage h _ => Some h | _ => None end) ev.

(** Loop states that agree on the stages recorded. *)
Definition same_sections (st st' : AggState) : Prop :=
  st_stages_map st = st_stages_map st' ∧ st_opened st = st_opened st'.

(** The stages closed after the stream has ended. *)
Definition forced_closes (st : AggState) : list event :=
  (λ kv, CloseStageSafely (Nested kv.2)) <$> st_stages_map st.

(** A reading of the nested-section protocol that the loop does not
    follow: an update for a recorded index that carries attachments
    attaches each of them to its section. *)
Definition attaches_what_it_carries (us : list StageUpdate) : Prop :=
  ∀ pre u post h atts a,
    us = pre ++ u :: post →
    stages_map_get (su_index u) (st_stages_map (state_after init_state pre)) = Some h →
    su_attachments u = Some atts →
    a ∈ atts →
    AddAttachment (Nested h) a ∈ (process_stage_update (state_after init_state pre) u).2.

(** The runs in which no content is appended and nothing is attached to a
    nested section after its close: no such update follows the completed
    marker of its index.  [closed] lists the sections closed so far. *)
Fixpoint no_late_calls_from (closed : list nat) (ev : list event) : bool :=
  match ev with
  | [] => true
  | e :: ev' =>
      match e with
      | AppendContent (Nested h) _ | AddAttachment (Nested h) _ =>
          negb (bool_decide (h ∈ closed)) && no_late_calls_from closed ev'
      | CloseStageSafely (Nested h) => no_late_calls_from (h :: closed) ev'
      | _ => no_late_calls_from closed ev'
      end
  end.

Definition no_late_calls (ev : list event) : bool := no_late_calls_from [] ev.

(** *** A sample stream *)

Definition sample_attachment : Attachment :=
  PDict [("title", PStr "report"); ("url", PStr "files/report.txt")].

Definition update_open : StageUpdate :=
  {| su_index := 0; su_name := Some "Searching"; su_content := None;
     su_attachments := None; su_status := None |}.

Definition update_both : StageUpdate :=
  {| su_index := 0; su_name := None; su_content := Some "found";
     su_attachments := Some [sample_attachment]; su_status := None |}.

Definition update_done : StageUpdate :=
  {| su_index := 0; su_name := None; su_content := None;
     su_attachments := None; su_status := Some "completed" |}.

Definition sample_updates : list StageUpdate :=
  [update_open; update_both; update_done].

Definition stages_chunk (us : list StageUpdate) : Chunk :=
  {| chunk_choices :=
       [ {| choice_delta :=
              {| delta_content := None;
                 delta_custom_content :=
                   Some {| dcc_attachments := None;
                           dcc_state := PNone;
                           dcc_stages := Some us |} |} |} ] |}.

Definition sample_stream : list Chunk := [stages_chunk sample_updates].

(** The scenario of the specification: two content deltas, one
    attachment, one section that is opened and then completed. *)
Definition scenario_stream : list Chunk :=
  [ {| chunk_choices :=
         [ {| choice_delta :=
                {| delta_content := Some "Hel";
                   delta_custom_content :=
                     Some {| dcc_attachments := None; dcc_state := PNone;
                             dcc_stages := Some [update_open] |} |} |} ] |};
    {| chunk_choices :=
         [ {| choice_delta :=
                {| delta_content := Some "lo";
                   delta_custom_content :=
                     Some {| dcc_attachments := Some [sample_attachment];
                             dcc_state := PNone;
                             dcc_stages := Some [update_done] |} |} |} ] |};
    {| chunk_choices := [] |} ].

(** A reply that carries a state, and the history of the next turn. *)
Definition sample_reply : list Chunk :=
  [ {| chunk_choices :=
         [ {| choice_delta :=
                {| delta_content := Some "Hel";
                   delta_custom_content :=
                     Some {| dcc_attachments := None;
                             dcc_state := PDict [("thread", PStr "t-42")];
                             dcc_stages := None |} |} |} ] |};
    {| chunk_choices :=
         [ {| choice_delta :=
                {| delta_content := Some "lo";
                   delta_custom_content := None |} |} ] |} ].

Definition sample_custom_content : CustomContent :=
  {| cc_stages := None;
     cc_attachments := None;
     cc_state := exported_state (PDict [("thread", PStr "t-42")]) |}.

Definition sample_user : Message :=
  {| msg_role := USER; msg_content := Some "hi"; msg_custom_content := None |}.

Definition sample_assistant : Message :=
  {| msg_role := ASSISTANT;
     msg_content := Some "Hello";
     msg_custom_content := Some sample_custom_content |}.

Definition sample_user_again : Message :=
  {| msg_role := USER; msg_content := Some "and then?"; msg_custom_content := None |}.

(** *** What the fragments carry besides content *)

(** The attachments of every fragment that carries some, in arrival order. *)
Definition fragment_attachments (chunks : list Chunk) : list Attachment :=
  fragments chunks ≫= λ delta,
    match delta_custom_content delta with
    | Some cc => default [] (dcc_attachments cc)
    | None => []
    end.

(** The state field of every fragment that has custom content. *)
Definition fragment_states (chunks : list Chunk) : list pyval :=
  omap (λ delta, dcc_state <$> delta_custom_content delta) (fragments chunks).

(** The last truthy value of a list, [v0] when there is none. *)
Definition last_truthy (v0 : pyval) (vs : list pyval) : pyval :=
  default v0 (last (filter (λ v, truthy v = true) vs)).

(** The attachments added to the choice. *)
Definition choice_attachments (ev : list event) : list Attachment :=
  omap (λ e, match e with ChoiceAddAttachment a => Some a | _ => None end) ev.

(** An assistant message that the preparation step restores: its state is
    a truthy dict whose [is_gpa] entry is truthy. *)
Definition gpa_marked (m : Message) : bool :=
  bool_decide (msg_role m = ASSISTANT)
  && match msg_custom_content m with
     | Some cc =>
         match cc_state cc with
         | PDict d => truthy (PDict d) && truthy (default PNone (assoc_get _IS_GPA d))
         | _ => false
         end
     | None => false
     end.

(** The stages recorded by the loop are numbered as they are opened, one
    per index. *)
Definition well_numbered (st : AggState) : Prop :=
  NoDup (st_stages_map st).*1
  ∧ (st_stages_map st).*2 = seq 0 (length (st_stages_map st))
  ∧ st_opened st = length (st_stages_map st).

(** The distinct values of a list, in the order in which they first
    appear. *)
Definition first_appearances (l : list Z) : list Z :=
  foldl (λ acc x, if decide (x ∈ acc) then acc else acc ++ [x]) [] l.

(** [response]: the messages are prepared and sent to the agent, whose
    streamed answer is then read.  [agent] is the deployment behind
    [client.chat.completions.create]. *)
Definition response (agent : list MessageDict → list Chunk)
    (request : Request) (additional_instructions : option string)
  : result Response :=
  let* messages := prepare_gpa_messages request additional_instructions in
  Ok (response_stream (agent messages)).

End GPAGateway.

(** ** The coordinator ([task/agent.py]) *)

Module MASCoordinator.

(** Modelled from the spec: the [AgentName] enum of [task/models.py], with
    its two members ([GPA] for the general-purpose agent, [UMS] for the
    specialized service).  [OtherAgent] stands for any other value that
    reaches the dispatch. *)
Inductive AgentName :=
| GPA
| UMS
| OtherAgent (name : string).

(** Modelled from the spec: [CoordinationRequest] of [task/models.py]. *)
Record CoordinationRequest := {
  agent_name : AgentName;
  additional_instructions : option string;
}.

Inductive Gateway := TheGPAGateway | TheUMSAgentGateway.

(** What one turn does, in program order: the stages it opens on the
    choice (numbered as they are opened), the gateway it enters, and the
    calls made inside a gateway or by the synthesis loop. *)
Inductive turn_event :=
| TurnOpenStage (k : nat) (name : string)
| TurnStageAppend (k : nat) (s : string)
| TurnCloseStage (k : nat)
| Invoke (g : Gateway) (instructions : option string)
| Within (e : event).

(** *** [__prepare_messages] *)

Definition transcribe (message : Message) : MessageDict :=
  if decide (msg_role message = USER) then
    match msg_custom_content message with
    | Some _ =>
        {| d_role := USER;
           d_content := Some (py_str (msg_content message));
           d_custom_content := None |}
    | None => to_dict message
    end
  else to_dict message.

Definition prepare_messages (request : Request) (system_prompt : string)
  : list MessageDict :=
  {| d_role := SYSTEM; d_content := Some system_prompt; d_custom_content := None |}
  :: (transcribe <$> req_messages request).

(** *** The context block of [__final_response] *)

Definition numbered_context (i : nat) (msg : Message) : string :=
  "## CONTEXT " +:+ pretty (i + 1)%nat +:+ ":" +:+ LF +:+ " "
  +:+ py_str (msg_content msg).

Definition final_context (agent_messages : list Message) : string :=
  if decide (1 < length agent_messages)%nat then
    String.concat LF (imap numbered_context agent_messages)
  else if decide (length agent_messages = 1%nat) then
    "## CONTEXT:" +:+ LF +:+ " "
    +:+ py_str (from_option msg_content None (agent_messages !! 0%nat))
  else "No agent calls".

(** [messages[-1]["content"]] *)
Definition get_content (d : MessageDict) : result string :=
  match d_content d with
  | Some c => Ok c
  | None => Raise (KeyError "content")
  end.

Definition set_content (d : MessageDict) (c : string) : MessageDict :=
  {| d_role := d_role d; d_content := Some c; d_custom_content := d_custom_content d |}.

(** Lines 136-148: the message list sent to the synthesis model. *)
Definition synthesis_messages (system_prompt : string) (request : Request)
    (agent_messages : list Message) : result (list MessageDict) :=
  let messages := prepare_messages request system_prompt in
  let context := final_context agent_messages in
  let* last_msg := py_index messages (-1) in
  let* user_text := get_content last_msg in
  let updated_user_request :=
    context +:+ LF +:+ " ---" +:+ LF +:+ " ## USER_REQUEST: " +:+ LF +:+ " "
    +:+ user_text in
  Ok (<[ pred (length messages) := set_content last_msg updated_user_request ]> messages).

(** *** The synthesis stream (lines 156-162) *)

Fixpoint read_synthesis (content : string) (chunks : list Chunk)
  : string * list event :=
  match chunks with
  | [] => (content, [])
  | chunk :: chunks' =>
      match chunk_choices chunk with
      | c :: _ =>
          let delta := choice_delta c in
          if opt_str_truthy (delta_content delta) then
            let s := default "" (delta_content delta) in
            let '(content', ev) := read_synthesis (content +:+ s) chunks' in
            (content', ChoiceAppendContent s :: ev)
          else read_synthesis content chunks'
      | [] => read_synthesis content chunks'
      end
  end.

(** *** Merging the agents' custom content (lines 164-171) *)

(** [acc.extend(other)] where both are [Optional] lists: the attribute
    lookup fails on [None], then the iteration of the argument does. *)
Definition py_extend {A} (acc other : option (list A)) : result (option (list A)) :=
  match acc with
  | None => Raise (AttributeError "extend")
  | Some l =>
      match other with
      | None => Raise (TypeError "'NoneType' object is not iterable")
      | Some l' => Ok (Some (l ++ l'))
      end
  end.

Definition merge_step (custom_content : option CustomContent) (msg : Message)
  : result (option CustomContent) :=
  match msg_custom_content msg with
  | Some mcc =>
      match custom_content with
      | None => Ok (Some mcc)
      | Some acc =>
          let* stages := py_extend (cc_stages acc) (cc_stages mcc) in
          let* attachments := py_extend (cc_attachments acc) (cc_attachments mcc) in
          Ok (Some {| cc_stages := stages;
                      cc_attachments := attachments;
                      cc_state := cc_state acc |})
      end
  | None => Ok custom_content
  end.

Fixpoint merge_custom_content (custom_content : option CustomContent)
    (agent_messages : list Message) : result (option CustomContent) :=
  match agent_messages with
  | [] => Ok custom_content
  | msg :: rest =>
      let* custom_content' := merge_step custom_content msg in
      merge_custom_content custom_content' rest
  end.

(** *** The transcription and the context, in the words of the specification *)

(** A user message that carries structured custom content. *)
Definition carries_structured_content (m : Message) : bool :=
  bool_decide (msg_role m = USER)
  && match msg_custom_content m with Some _ => true | None => false end.

(** The plain-text user message that holds only the text of [m]. *)
Definition plain_text_copy (m : Message) : MessageDict :=
  {| d_role := USER;
     d_content := Some (py_str (msg_content m));
     d_custom_content := None |}.

(** The block numbered [k], counted from 1, of the agents' outputs. *)
Definition context_block (agent_messages : list Message) (k : nat) : string :=
  "## CONTEXT " +:+ pretty k +:+ ":" +:+ LF +:+ " "
  +:+ py_str (from_option msg_content None (agent_messages !! pred k)).

Definition numbered_blocks (agent_messages : list Message) : list string :=
  context_block agent_messages <$> seq 1 (length agent_messages).

(** The custom content of the agent messages that have any, in plan order,
    and its concatenation. *)
Definition side_channels (agent_messages : list Message) : list CustomContent :=
  omap msg_custom_content agent_messages.

Definition has_lists (cc : CustomContent) : bool :=
  match cc_stages cc, cc_attachments cc with
  | Some _, Some _ => true
  | _, _ => false
  end.

Definition concatenated (ccs : list CustomContent) : option CustomContent :=
  match ccs with
  | [] => None
  | cc :: _ =>
      Some {| cc_stages := Some (ccs ≫= λ c, default [] (cc_stages c));
              cc_attachments := Some (ccs ≫= λ c, default [] (cc_attachments c));
              cc_state := cc_state cc |}
  end.

(** *** Sample data *)

Definition attachment_of (title : string) : Attachment := PDict [("title", PStr title)].

(** Two agent messages that carry attachments and no stages. *)
Definition agent_message_with (text title : string) : Message :=
  {| msg_role := ASSISTANT;
     msg_content := Some text;
     msg_custom_content :=
       Some {| cc_stages := None;
               cc_attachments := Some [attachment_of title];
               cc_state := PNone |} |}.

Definition sample_agent_messages : list Message :=
  [agent_message_with "A" "a.txt"; agent_message_with "B" "b.txt"].

Definition sample_request : Request :=
  {| req_messages :=
       [ {| msg_role := USER; msg_content := Some "What is new?";
            msg_custom_content := None |} ] |}.

Definition sample_agent_name_str (a : AgentName) : string :=
  match a with
  | GPA => "GPA"
  | UMS => "UMS"
  | OtherAgent name => name
  end.

Definition sample_plan : list CoordinationRequest :=
  [ {| agent_name := OtherAgent "Weather"; additional_instructions := None |} ].

(** *** Reading the events of a turn *)

Definition is_stage_event (e : turn_event) : bool :=
  match e with
  | TurnOpenStage _ _ | TurnCloseStage _ => true
  | _ => false
  end.

(** The opening and closing of the stages of a turn, in order. *)
Definition turn_stage_events (ev : list turn_event) : list turn_event :=
  filter (λ e, is_stage_event e = true) ev.

(** The gateways entered during a turn, in order. *)
Definition invoked (ev : list turn_event) : list Gateway :=
  omap (λ e, match e with Invoke g _ => Some g | _ => None end) ev.

Definition gateway_of (a : AgentName) : option Gateway :=
  match a with
  | GPA => Some TheGPAGateway
  | UMS => Some TheUMSAgentGateway
  | OtherAgent _ => None
  end.

(** A call of the plan that names the general-purpose agent. *)
Definition names_gpa (c : CoordinationRequest) : bool :=
  match agent_name c with
  | GPA => true
  | _ => false
  end.

(** Agent messages that carry stages and attachments. *)
Definition agent_message_full (text stage title : string) : Message :=
  {| msg_role := ASSISTANT;
     msg_content := Some text;
     msg_custom_content :=
       Some {| cc_stages := Some [PDict [("name", PStr stage)]];
               cc_attachments := Some [attachment_of title];
               cc_state := PStr text |} |}.

Definition sample_full_messages : list Message :=
  [ agent_message_full "A" "Searching" "a.txt";
    {| msg_role := ASSISTANT; msg_content := Some "B"; msg_custom_content := None |};
    agent_message_full "C" "Reading" "c.txt" ].

Definition sample_ums_message : Message :=
  {| msg_role := ASSISTANT; msg_content := Some "two users found";
     msg_custom_content := None |}.

Definition sample_known_plan : list CoordinationRequest :=
  [ {| agent_name := GPA; additional_instructions := None |};
    {| agent_name := UMS; additional_instructions := Some "list users" |} ].

Section Coordinator.

(** [task/prompts.py] is not part of the sources at hand. *)
Variable COORDINATION_REQUEST_SYSTEM_PROMPT : string.
Variable FINAL_RESPONSE_SYSTEM_PROMPT : string.

(** The deployments behind [client.chat.completions.create]: the
    general-purpose agent, the synthesis model, and the planning model
    together with the parsing and validation of its answer. *)
Variable gpa_agent : list MessageDict → list Chunk.
Variable synthesis_model : list MessageDict → list Chunk.
Variable planning_model : list MessageDict → result (list CoordinationRequest).

(** [UMSAgentGateway.response] of [task/coordination/ums_agent.py] and the
    renderings of a plan and of an agent name are taken as given. *)
Variable ums_gateway_response : Request → option string → result Message * list event.
Variable model_dump_json : list CoordinationRequest → string.
Variable agent_name_str : AgentName → string.

Record FinalResponse := {
  fr_sent : list MessageDict;
  fr_events : list event;
  fr_message : Message;
}.

(** The events are those of the synthesis loop; they have happened also
    when the merge that follows raises. *)
Definition final_response (request : Request) (agent_messages : list Message)
  : result FinalResponse * list event :=
  match synthesis_messages FINAL_RESPONSE_SYSTEM_PROMPT request agent_messages with
  | Raise e => (Raise e, [])
  | Ok messages =>
      let '(content, ev) := read_synthesis "" (synthesis_model messages) in
      match merge_custom_content None agent_messages with
      | Raise e => (Raise e, ev)
      | Ok custom_content =>
          (Ok {| fr_sent := messages;
                 fr_events := ev;
                 fr_message := {| msg_role := ASSISTANT;
                                  msg_content := Some content;
                                  msg_custom_content := custom_content |} |},
           ev)
      end
  end.

(** *** [__handle_coordination_request] *)

Definition handle_coordination_request (coordination_request : CoordinationRequest)
    (request : Request) : result Message * list turn_event :=
  match agent_name coordination_request with
  | GPA =>
      let instructions := additional_instructions coordination_request in
      match GPAGateway.response gpa_agent request instructions with
      | Ok r =>
          (Ok (GPAGateway.res_message r),
           Invoke TheGPAGateway instructions :: (Within <$> GPAGateway.res_events r))
      | Raise e => (Raise e, [Invoke TheGPAGateway instructions])
      end
  | UMS =>
      let instructions := additional_instructions coordination_request in
      let '(r, ev) := ums_gateway_response request instructions in
      (r, Invoke TheUMSAgentGateway instructions :: (Within <$> ev))
  | OtherAgent _ =>
      (Raise (ValueError ("Agent Name "
                          +:+ agent_name_str (agent_name coordination_request)
                          +:+ " is unknown")), [])
  end.

(** *** [handle_request] *)

(** The [for agent_call in coordination_request.agent_calls] loop; [k]
    numbers the stage opened for the call. *)
Fixpoint call_agents (request : Request) (k : nat) (agent_calls : list CoordinationRequest)
  : result (list Message) * list turn_event :=
  match agent_calls with
  | [] => (Ok [], [])
  | agent_call :: rest =>
      let opening :=
        TurnOpenStage k ("Call " +:+ agent_name_str (agent_name agent_call) +:+ " Agent") in
      match handle_coordination_request agent_call request with
      | (Ok m, ev) =>
          let '(r, ev') := call_agents request (S k) rest in
          (match r with Ok ms => Ok (m :: ms) | Raise e => Raise e end,
           opening :: ev ++ TurnCloseStage k :: ev')
      | (Raise e, ev) => (Raise e, opening :: ev)
      end
  end.

Definition CR : string := String (Ascii.ascii_of_nat 13) EmptyString.

Definition handle_request (request : Request) : result Message * list turn_event :=
  let opening := TurnOpenStage 0 "Coordination Request" in
  match planning_model (prepare_messages request COORDINATION_REQUEST_SYSTEM_PROMPT) with
  | Raise e => (Raise e, [opening])
  | Ok agent_calls =>
      let plan_events :=
        [opening;
         TurnStageAppend 0 ("```json" +:+ LF +:+ CR +:+ model_dump_json agent_calls
                            +:+ LF +:+ CR +:+ "```" +:+ LF +:+ CR);
         TurnCloseStage 0] in
      match call_agents request 1 agent_calls with
      | (Raise e, ev) => (Raise e, plan_events ++ ev)
      | (Ok agent_messages, ev) =>
          let '(r, ev') := final_response request agent_messages in
          (match r with Ok fr => Ok (fr_message fr) | Raise e => Raise e end,
           plan_events ++ ev ++ (Within <$> ev'))
      end
  end.

End Coordinator.

End MASCoordinator.

(** * Properties *)

(** ** Strings and the result monad *)

Lemma append_assoc (a b c : string) : (a +:+ b) +:+ c = a +:+ (b +:+ c).
Proof.
  induction a as [|ch a IH]; [reflexivity|].
  change (String ch ((a +:+ b) +:+ c) = String ch (a +:+ b +:+ c)). by f_equal.
Qed.

Lemma append_empty_r (a : string) : a +:+ "" = a.
Proof.
  induction a as [|ch a IH]; [reflexivity|].
  change (String ch (a +:+ "") = String ch a). by f_equal.
Qed.

Lemma py_index_last {A} (l : list A) (x : A) : py_index (l ++ [x]) (-1) = Ok x.
Proof.
  unfold py_index. rewrite length_app. simpl.
  replace (-1 <? 0) with true by reflexivity.
  assert (H : -1 + Z.of_nat (length l + 1) = Z.of_nat (length l)) by lia.
  rewrite H.
  destruct (Z.ltb_spec (Z.of_nat (length l)) 0) as [?|_]; [lia|].
  destruct (Z.leb_spec (Z.of_nat (length l + 1)) (Z.of_nat (length l))) as [?|_]; [lia|].
  simpl. rewrite Nat2Z.id.
  by rewrite lookup_app_r, Nat.sub_diag.
Qed.

Lemma py_index_in_range {A} (l : list A) (i : Z) :
  - Z.of_nat (length l) ≤ i < Z.of_nat (length l) → ∃ x, py_index l i = Ok x.
Proof.
  intros Hi. unfold py_index.
  set (j := if i <? 0 then i + Z.of_nat (length l) else i).
  assert (Hj : 0 ≤ j < Z.of_nat (length l)).
  { subst j. destruct (Z.ltb_spec i 0); lia. }
  destruct (Z.ltb_spec j 0) as [?|_]; [lia|].
  destruct (Z.leb_spec (Z.of_nat (length l)) j) as [?|_]; [lia|].
  simpl.
  destruct (lookup_lt_is_Some_2 l (Z.to_nat j)) as [x Hx]; [lia|].
  rewrite Hx. by exists x.
Qed.

Lemma insert_last {A} (l : list A) (x y : A) :
  <[pred (length (l ++ [x])) := y]> (l ++ [x]) = l ++ [y].
Proof.
  rewrite length_app. simpl.
  replace (pred (length l + 1)) with (length l + 0)%nat by lia.
  by rewrite insert_app_r.
Qed.

(** ** The general-purpose gateway *)

Section GPAFacts.
Import GPAGateway.

Lemma restore_message_total messages i m :
  (i < length messages)%nat → readable m = true →
  ∃ out, restore_message messages i m = Ok out.
Proof.
  intros Hi Hr. unfold restore_message, readable in *.
  destruct (decide (msg_role m = ASSISTANT)) as [Hrole|]; [|by eexists].
  destruct (msg_custom_content m) as [cc|]; [|by eexists].
  destruct (truthy (cc_state cc)) eqn:Ht; [|by eexists].
  destruct (cc_state cc) as [| | | | |d] eqn:Hs;
    try (rewrite Ht, bool_decide_eq_true_2 in Hr by done; discriminate Hr).
  simpl.
  destruct (truthy (default PNone (assoc_get _IS_GPA d))); [|by eexists].
  destruct (py_index_in_range messages (Z.of_nat i - 1)) as [prev ->]; [lia|].
  simpl. by eexists.
Qed.

Lemma restore_history_total messages rest i :
  (i + length rest ≤ length messages)%nat →
  forallb readable rest = true →
  ∃ out, restore_history messages i rest = Ok out.
Proof.
  revert i. induction rest as [|m rest IH]; intros i Hlen Hr; simpl in *.
  - by eexists.
  - apply andb_true_iff in Hr as [Hm Hrest].
    destruct (restore_message_total messages i m) as [o1 ->]; [lia|done|].
    destruct (IH (S i)) as [o2 ->]; [lia|done|].
    simpl. by eexists.
Qed.

Lemma restore_history_app messages i l1 l2 o1 o2 :
  restore_history messages i l1 = Ok o1 →
  restore_history messages (i + length l1) l2 = Ok o2 →
  restore_history messages i (l1 ++ l2) = Ok (o1 ++ o2).
Proof.
  revert i o1. induction l1 as [|m l1 IH]; intros i o1 H1 H2; simpl in *.
  - injection H1 as <-. by rewrite Nat.add_0_r in H2.
  - destruct (restore_message messages i m) as [here|]; simpl in *; [|done].
    destruct (restore_history messages (S i) l1) as [later|] eqn:Hl; simpl in *; [|done].
    injection H1 as <-.
    rewrite (IH (S i) later); [|done|].
    + simpl. by rewrite <- app_assoc.
    + by replace (S i + length l1)%nat with (i + S (length l1))%nat by lia.
Qed.

Lemma restore_exported messages i m cc inner :
  (i < length messages)%nat →
  msg_role m = ASSISTANT →
  msg_custom_content m = Some cc →
  cc_state cc = exported_state inner →
  ∃ prev, restore_message messages i m = Ok [to_dict prev; rebuilt m cc inner].
Proof.
  intros Hi Hrole Hcc Hst. unfold restore_message.
  rewrite decide_True by done. rewrite Hcc, Hst. simpl.
  destruct (py_index_in_range messages (Z.of_nat i - 1)) as [prev ->]; [lia|].
  simpl. exists prev. unfold rebuilt, to_dict. simpl. by rewrite Hrole.
Qed.

Lemma response_stream_exports chunks :
  last (res_events (response_stream chunks))
  = Some (ChoiceSetState (exported_state (st_state (res_final (response_stream chunks))))).
Proof.
  unfold response_stream. destruct (read_chunks init_state chunks) as [st ev].
  simpl. by rewrite !app_assoc, last_snoc.
Qed.

Lemma restore_history_split messages i l1 m l2 out :
  restore_history messages i (l1 ++ m :: l2) = Ok out →
  ∃ o1 here o2,
    restore_message messages (i + length l1) m = Ok here
    ∧ out = o1 ++ here ++ o2.
Proof.
  revert i out. induction l1 as [|x l1 IH]; intros i out H; simpl in *.
  - rewrite Nat.add_0_r.
    destruct (restore_message messages i m) as [here|]; simpl in *; [|done].
    destruct (restore_history messages (S i) l2) as [later|]; simpl in *; [|done].
    injection H as <-. by exists [], here, later.
  - destruct (restore_message messages i x) as [hx|]; simpl in *; [|done].
    destruct (restore_history messages (S i) (l1 ++ m :: l2)) as [later|] eqn:Hl;
      simpl in *; [|done].
    injection H as <-.
    destruct (IH (S i) later Hl) as (o1 & here & o2 & Hm & ->).
    exists (hx ++ o1), here, o2. split.
    + by replace (i + S (length l1))%nat with (S i + length l1)%nat by lia.
    + by rewrite <- app_assoc.
Qed.

(** C1. The state exported by the gateway at the end of a stream is the
    wrapper around the aggregated state.  When an assistant message
    carrying that exported state comes back in the history, every message
    list that the preparation step returns contains the rebuilt assistant
    message, whose state field is exactly the aggregated state: the
    wrapper is stripped and nothing else of the message changes.  The
    preparation step does return when the other messages of the history
    are readable. *)
Theorem exported_state_round_trip (chunks : list Chunk)
    (before after : list Message) (m : Message) (cc : CustomContent)
    (instructions : option string) :
  let r := response_stream chunks in
  let inner := st_state (res_final r) in
  let request := {| req_messages := before ++ m :: after |} in
  msg_role m = ASSISTANT →
  msg_custom_content m = Some cc →
  last (res_events r) = Some (ChoiceSetState (cc_state cc)) →
  (∀ out, prepare_gpa_messages request instructions = Ok out →
          ∃ pre post, out = pre ++ rebuilt m cc inner :: post)
  ∧ (forallb readable (before ++ after) = true →
     ∃ out, prepare_gpa_messages request instructions = Ok out)
  ∧ d_custom_content (rebuilt m cc inner)
    = Some {| cc_stages := cc_stages cc;
              cc_attachments := cc_attachments cc;
              cc_state := inner |}.
Proof.
  intros r inner request Hrole Hcc Hlast.
  assert (Hst : cc_state cc = exported_state inner).
  { subst r inner. rewrite response_stream_exports in Hlast. congruence. }
  set (messages := before ++ m :: after).
  assert (Hlen : length messages = (length before + S (length after))%nat).
  { subst messages. rewrite length_app. reflexivity. }
  destruct (restore_exported messages (length before) m cc inner) as [prev Hm];
    [lia|done..|].
  split; [|split; [|reflexivity]].
  - intros out Hout. unfold prepare_gpa_messages in Hout. simpl in Hout.
    fold messages in Hout.
    destruct (restore_history messages 0 messages) as [res|] eqn:Hres;
      simpl in Hout; [|done].
    unfold messages at 2 in Hres.
    apply restore_history_split in Hres as (o1 & here & o2 & Hhere & ->).
    simpl in Hhere. rewrite Hm in Hhere. injection Hhere as <-.
    destruct (py_index messages (-1)) as [last_user_msg|]; simpl in Hout; [|done].
    destruct (opt_str_truthy instructions); injection Hout as <-;
      eexists (o1 ++ [to_dict prev]), _; rewrite <- !app_assoc; simpl; reflexivity.
  - intros Hread.
    rewrite forallb_app in Hread. apply andb_true_iff in Hread as [Hb Ha].
    destruct (restore_history_total messages before 0) as [o1 H1]; [lia|done|].
    destruct (restore_history_total messages after (S (length before))) as [o2 H2];
      [lia|done|].
    assert (Hall : restore_history messages 0 messages
                   = Ok (o1 ++ ([to_dict prev; rebuilt m cc inner] ++ o2))).
    { unfold messages at 2. apply restore_history_app; [done|].
      simpl. rewrite Hm, H2. reflexivity. }
    assert (Hne : ∃ l x, messages = l ++ [x]).
    { destruct (exists_last (l := messages)) as (l & x & ->).
      - subst messages. by destruct before.
      - by exists l, x. }
    destruct Hne as (l & x & Hlx).
    unfold prepare_gpa_messages. simpl. fold messages.
    rewrite Hall. simpl.
    assert (Hidx : py_index messages (-1) = Ok x).
    { rewrite Hlx. apply py_index_last. }
    rewrite Hidx. simpl.
    destruct (opt_str_truthy instructions); by eexists.
Qed.

Lemma exported_state_round_trip_witness :
  let chunks := sample_reply in
  let m := sample_assistant in
  let inner := PDict [("thread", PStr "t-42")] in
  (msg_role m = ASSISTANT
   ∧ msg_custom_content m = Some sample_custom_content
   ∧ last (res_events (response_stream chunks))
     = Some (ChoiceSetState (cc_state sample_custom_content)))
  ∧ prepare_gpa_messages
      {| req_messages := [sample_user] ++ m :: [sample_user_again] |} None
    = Ok [to_dict sample_user; rebuilt m sample_custom_content inner;
          to_dict sample_user_again]
  ∧ ∃ pre post,
      [to_dict sample_user; rebuilt m sample_custom_content inner;
       to_dict sample_user_again]
      = pre ++ rebuilt m sample_custom_content inner :: post.
Proof.
  intros chunks m inner.
  split; [by repeat split|]. split; [reflexivity|].
  destruct (exported_state_round_trip chunks [sample_user] [sample_user_again]
              m sample_custom_content None eq_refl eq_refl eq_refl) as (Hin & _ & _).
  apply Hin. reflexivity.
Defined.

(** *** The aggregation loop *)

Lemma concat_empty_cons (x : string) (xs : list string) :
  String.concat "" (x :: xs) = x +:+ String.concat "" xs.
Proof. destruct xs; simpl; [by rewrite append_empty_r | reflexivity]. Qed.

Lemma concat_empty_app (xs ys : list string) :
  String.concat "" (xs ++ ys) = String.concat "" xs +:+ String.concat "" ys.
Proof.
  induction xs as [|x xs IH]; [reflexivity|].
  rewrite <- app_comm_cons, !concat_empty_cons, IH. by rewrite append_assoc.
Qed.

Lemma str_truthy_iff (s : string) : str_truthy s = true ↔ s ≠ "".
Proof. destruct s; simpl; split; congruence. Qed.

Lemma process_stage_update_answer st u :
  same_answer st (process_stage_update st u).1.
Proof.
  unfold process_stage_update, same_answer.
  destruct (stages_map_get _ _); [|done].
  by repeat case_match.
Qed.

Lemma process_stage_update_nested st u :
  Forall (λ e, on_nested e = true) (process_stage_update st u).2.
Proof.
  unfold process_stage_update.
  destruct (stages_map_get _ _) as [h|]; simpl.
  - repeat case_match; simpl; repeat constructor.
    apply Forall_fmap, Forall_true. done.
  - by repeat constructor.
Qed.

Lemma process_stages_answer st us :
  same_answer st (process_stages st us).1.
Proof.
  revert st. induction us as [|u us IH]; intros st; simpl; [done|].
  pose proof (process_stage_update_answer st u) as (H1 & H2 & H3).
  destruct (process_stage_update st u) as [st1 ev1]; simpl in *.
  specialize (IH st1) as (I1 & I2 & I3).
  destruct (process_stages st1 us) as [st2 ev2]; simpl in *.
  unfold same_answer; simpl. by rewrite I1, I2, I3.
Qed.

Lemma process_stages_nested st us :
  Forall (λ e, on_nested e = true) (process_stages st us).2.
Proof.
  revert st. induction us as [|u us IH]; intros st; simpl; [constructor|].
  pose proof (process_stage_update_nested st u) as H1.
  destruct (process_stage_update st u) as [st1 ev1]; simpl in *.
  specialize (IH st1).
  destruct (process_stages st1 us) as [st2 ev2]; simpl in *.
  by apply Forall_app.
Qed.

Lemma call_stage_appends_nested ev :
  Forall (λ e, on_nested e = true) ev → call_stage_appends ev = [].
Proof.
  induction 1 as [|e ev He _ IH]; [reflexivity|].
  unfold call_stage_appends in *.
  destruct e as [[|h]| | | | | |]; simpl in *; first [discriminate He | exact IH].
Qed.

Lemma call_stage_appends_app ev1 ev2 :
  call_stage_appends (ev1 ++ ev2) = call_stage_appends ev1 ++ call_stage_appends ev2.
Proof. apply omap_app. Qed.

Lemma process_custom_content_content st cc :
  st_content (process_custom_content st cc).1 = st_content st.
Proof.
  unfold process_custom_content.
  set (st1 := if opt_list_truthy (dcc_attachments cc) then _ else st).
  set (st2 := if truthy (dcc_state cc) then _ else st1).
  assert (H2 : st_content st2 = st_content st).
  { subst st2 st1. by repeat case_match. }
  destruct (opt_list_truthy (dcc_stages cc)); [|done].
  by destruct (process_stages_answer st2 (default [] (dcc_stages cc))) as (-> & _).
Qed.

Lemma process_custom_content_nested st cc :
  Forall (λ e, on_nested e = true) (process_custom_content st cc).2.
Proof.
  unfold process_custom_content.
  destruct (opt_list_truthy (dcc_stages cc)); [|constructor].
  apply process_stages_nested.
Qed.

(** What one fragment adds to the answer and to the stage of the call. *)
Lemma process_delta_content st delta :
  st_content (process_delta st delta).1
  = st_content st +:+ String.concat "" (option_list (delta_content delta))
  ∧ call_stage_appends (process_delta st delta).2
    = filter (λ s, s ≠ "") (option_list (delta_content delta)).
Proof.
  unfold process_delta.
  destruct (delta_content delta) as [c|] eqn:Hc; simpl.
  - destruct (str_truthy c) eqn:Ht.
    + assert (c ≠ "") by by apply str_truthy_iff.
      rewrite filter_cons_True, filter_nil by done.
      destruct (delta_custom_content delta) as [cc|]; simpl; [|done].
      pose proof (process_custom_content_content
        {| st_content := st_content st +:+ c;
           st_attachments := st_attachments st;
           st_state := st_state st;
           st_stages_map := st_stages_map st;
           st_opened := st_opened st |} cc) as Hk.
      pose proof (process_custom_content_nested
        {| st_content := st_content st +:+ c;
           st_attachments := st_attachments st;
           st_state := st_state st;
           st_stages_map := st_stages_map st;
           st_opened := st_opened st |} cc) as Hn.
      destruct (process_custom_content _ cc) as [st2 ev2]; simpl in *.
      split; [done|].
      by rewrite (call_stage_appends_nested ev2).
    + assert (c = "") as ->.
      { destruct c; [done | discriminate Ht]. }
      rewrite filter_cons_False, filter_nil by (intros H; by apply H).
      rewrite append_empty_r.
      destruct (delta_custom_content delta) as [cc|]; simpl; [|done].
      pose proof (process_custom_content_content st cc) as Hk.
      pose proof (process_custom_content_nested st cc) as Hn.
      destruct (process_custom_content st cc) as [st2 ev2]; simpl in *.
      split; [done|]. by apply call_stage_appends_nested.
  - rewrite append_empty_r, filter_nil.
    destruct (delta_custom_content delta) as [cc|]; simpl; [|done].
    pose proof (process_custom_content_content st cc) as Hk.
    pose proof (process_custom_content_nested st cc) as Hn.
    destruct (process_custom_content st cc) as [st2 ev2]; simpl in *.
    split; [done|]. by apply call_stage_appends_nested.
Qed.

Lemma fragment_contents_cons chunk chunks :
  fragment_contents (chunk :: chunks)
  = match chunk_choices chunk with
    | c :: _ => option_list (delta_content (choice_delta c))
    | [] => []
    end ++ fragment_contents chunks.
Proof.
  unfold fragment_contents, fragments. simpl.
  destruct (chunk_choices chunk) as [|c cs]; simpl; [done|].
  by destruct (delta_content (choice_delta c)).
Qed.

Lemma read_chunks_content st chunks :
  st_content (read_chunks st chunks).1
  = st_content st +:+ String.concat "" (fragment_contents chunks)
  ∧ call_stage_appends (read_chunks st chunks).2
    = filter (λ s, s ≠ "") (fragment_contents chunks).
Proof.
  revert st. induction chunks as [|chunk chunks IH]; intros st.
  - simpl. by rewrite append_empty_r.
  - rewrite fragment_contents_cons. cbn [read_chunks]. unfold process_chunk.
    destruct (chunk_choices chunk) as [|c cs].
    + specialize (IH st). destruct (read_chunks st chunks) as [st2 ev2]. exact IH.
    + pose proof (process_delta_content st (choice_delta c)) as [H1 H2].
      destruct (process_delta st (choice_delta c)) as [st1 ev1].
      specialize (IH st1) as [I1 I2].
      destruct (read_chunks st1 chunks) as [st2 ev2].
      cbn [fst snd] in *.
      rewrite call_stage_appends_app, I1, I2, H1, H2.
      by rewrite concat_empty_app, append_assoc, filter_app.
Qed.

Lemma concat_filter_nonempty (l : list string) :
  String.concat "" (filter (λ s, s ≠ "") l) = String.concat "" l.
Proof.
  induction l as [|x l IH]; [reflexivity|].
  destruct (decide (x ≠ "")) as [Hx|Hx].
  - by rewrite filter_cons_True, !concat_empty_cons, IH.
  - rewrite filter_cons_False, concat_empty_cons, IH by done.
    destruct (decide (x = "")) as [->|]; [reflexivity | done].
Qed.

Lemma stage_updates_cons chunk chunks :
  stage_updates (chunk :: chunks)
  = match chunk_choices chunk with
    | c :: _ =>
        match delta_custom_content (choice_delta c) with
        | Some cc => default [] (dcc_stages cc)
        | None => []
        end
    | [] => []
    end ++ stage_updates chunks.
Proof.
  unfold stage_updates, fragments. simpl.
  destruct (chunk_choices chunk) as [|c cs]; reflexivity.
Qed.

(** A text appended to a nested section is the content of the update. *)
Lemma process_stage_update_append st u h s :
  AppendContent (Nested h) s ∈ (process_stage_update st u).2 → su_content u = Some s.
Proof.
  unfold process_stage_update.
  destruct (stages_map_get _ _) as [h'|]; simpl.
  - destruct (su_content u) as [c|]; simpl.
    + destruct (str_truthy c).
      * intros [= _ ->]%list_elem_of_singleton. reflexivity.
      * destruct (opt_list_truthy _); [|destruct (is_completed _)]; simpl; intros Hin.
        -- apply list_elem_of_fmap in Hin as (? & ? & ?); discriminate.
        -- apply list_elem_of_singleton in Hin; discriminate.
        -- by apply not_elem_of_nil in Hin.
    + destruct (opt_list_truthy _); [|destruct (is_completed _)]; simpl; intros Hin.
      * apply list_elem_of_fmap in Hin as (? & ? & ?); discriminate.
      * apply list_elem_of_singleton in Hin; discriminate.
      * by apply not_elem_of_nil in Hin.
  - intros Hin. apply list_elem_of_singleton in Hin. discriminate.
Qed.

Lemma process_stages_append st us h s :
  AppendContent (Nested h) s ∈ (process_stages st us).2 →
  ∃ u, u ∈ us ∧ su_content u = Some s.
Proof.
  revert st. induction us as [|u us IH]; intros st; simpl.
  - intros H. by apply not_elem_of_nil in H.
  - pose proof (process_stage_update_append st u h s) as H1.
    destruct (process_stage_update st u) as [st1 ev1].
    specialize (IH st1).
    destruct (process_stages st1 us) as [st2 ev2]. simpl in *.
    intros [H|H]%elem_of_app.
    + exists u. split; [left | auto].
    + destruct (IH H) as (u' & ? & ?). exists u'. split; [by right | done].
Qed.

Lemma process_delta_append st delta h s :
  AppendContent (Nested h) s ∈ (process_delta st delta).2 →
  ∃ u, u ∈ match delta_custom_content delta with
           | Some cc => default [] (dcc_stages cc)
           | None => []
           end ∧ su_content u = Some s.
Proof.
  unfold process_delta.
  set (p := if opt_str_truthy (delta_content delta) then _ else _).
  assert (Hp : AppendContent (Nested h) s ∉ p.2).
  { subst p. destruct (opt_str_truthy _); simpl.
    - intros H. apply list_elem_of_singleton in H. discriminate.
    - apply not_elem_of_nil. }
  destruct p as [st1 ev1]. simpl in Hp.
  destruct (delta_custom_content delta) as [cc|]; [|done].
  unfold process_custom_content.
  set (st2 := if truthy (dcc_state cc) then _ else _).
  destruct (opt_list_truthy (dcc_stages cc)).
  - pose proof (process_stages_append st2 (default [] (dcc_stages cc)) h s) as H.
    destruct (process_stages st2 _) as [st3 ev3]. simpl in *.
    intros [?|?]%elem_of_app; [done | auto].
  - simpl. rewrite app_nil_r. done.
Qed.

Lemma read_chunks_append st chunks h s :
  AppendContent (Nested h) s ∈ (read_chunks st chunks).2 →
  ∃ u, u ∈ stage_updates chunks ∧ su_content u = Some s.
Proof.
  revert st. induction chunks as [|chunk chunks IH]; intros st.
  - simpl. intros H. by apply not_elem_of_nil in H.
  - rewrite stage_updates_cons. cbn [read_chunks]. unfold process_chunk.
    destruct (chunk_choices chunk) as [|c cs].
    + specialize (IH st). destruct (read_chunks st chunks) as [st2 ev2]. simpl in *.
      exact IH.
    + pose proof (process_delta_append st (choice_delta c) h s) as H1.
      destruct (process_delta st (choice_delta c)) as [st1 ev1].
      specialize (IH st1).
      destruct (read_chunks st1 chunks) as [st2 ev2]. cbn [fst snd] in *.
      intros [H|H]%elem_of_app.
      * destruct (H1 H) as (u & ? & ?). exists u. split; [|done].
        apply elem_of_app. by left.
      * destruct (IH H) as (u & ? & ?). exists u. split; [|done].
        apply elem_of_app. by right.
Qed.

Lemma response_stream_events chunks :
  res_events (response_stream chunks)
  = (read_chunks init_state chunks).2 ++ closing_events (read_chunks init_state chunks).1
  ∧ res_final (response_stream chunks) = (read_chunks init_state chunks).1.
Proof.
  unfold response_stream, closing_events.
  by destruct (read_chunks init_state chunks) as [st ev].
Qed.

Lemma closing_events_no_append st r s : AppendContent r s ∉ closing_events st.
Proof.
  unfold closing_events. intros H.
  apply elem_of_app in H as [H|H]; [|apply elem_of_app in H as [H|H]].
  - apply list_elem_of_fmap in H as (? & ? & ?). discriminate.
  - apply list_elem_of_fmap in H as (? & ? & ?). discriminate.
  - apply list_elem_of_singleton in H. discriminate.
Qed.

Lemma call_stage_appends_none ev :
  (∀ s, AppendContent CallStage s ∉ ev) → call_stage_appends ev = [].
Proof.
  induction ev as [|e ev IH]; intros H; [reflexivity|].
  unfold call_stage_appends in *.
  assert (IH' : omap (λ e, match e with AppendContent CallStage s => Some s | _ => None end) ev = []).
  { apply IH. intros s Hs. apply (H s). by right. }
  destruct e as [[|h] s| | | | | |]; simpl; try exact IH'.
  exfalso. apply (H s). left.
Qed.

Lemma nested_events_id_filter ev :
  Forall (λ e, on_nested e = true) ev → filter (λ e, on_nested e) ev = ev.
Proof.
  induction 1 as [|e ev He _ IH]; [done|].
  rewrite filter_cons_True by (by rewrite He). by rewrite IH.
Qed.

Lemma read_chunks_cons st chunk chunks :
  read_chunks st (chunk :: chunks)
  = ((read_chunks (process_chunk st chunk).1 chunks).1,
     (process_chunk st chunk).2 ++ (read_chunks (process_chunk st chunk).1 chunks).2).
Proof.
  cbn [read_chunks]. destruct (process_chunk st chunk) as [st1 ev1]. cbn [fst snd].
  by destruct (read_chunks st1 chunks).
Qed.

Lemma read_chunks_app st l1 l2 :
  read_chunks st (l1 ++ l2)
  = ((read_chunks (read_chunks st l1).1 l2).1,
     (read_chunks st l1).2 ++ (read_chunks (read_chunks st l1).1 l2).2).
Proof.
  revert st. induction l1 as [|c l1 IH]; intros st.
  - simpl. by destruct (read_chunks st l2).
  - rewrite <- app_comm_cons, !read_chunks_cons. cbn [fst snd].
    rewrite IH. cbn [fst snd]. by rewrite app_assoc.
Qed.

(** One iteration of the loop: the content of the fragment is appended to
    the stage of the call first, the calls on nested sections follow. *)
Lemma process_chunk_live st chunk :
  (process_chunk st chunk).2
  = (AppendContent CallStage <$> filter (λ s, s ≠ "") (fragment_contents [chunk]))
    ++ filter (λ e, on_nested e) (process_chunk st chunk).2
  ∧ st_content (process_chunk st chunk).1
    = st_content st +:+ String.concat "" (fragment_contents [chunk]).
Proof.
  rewrite fragment_contents_cons. change (fragment_contents []) with (@nil string).
  rewrite app_nil_r. unfold process_chunk.
  destruct (chunk_choices chunk) as [|c cs]; [simpl; by rewrite append_empty_r|].
  destruct (process_delta_content st (choice_delta c)) as [Hc _].
  split; [|exact Hc]. clear Hc. unfold process_delta.
  destruct (delta_content (choice_delta c)) as [[|a x]|];
    cbn [opt_str_truthy str_truthy option_list default].
  - change (option_list (Some "")) with [""].
    rewrite filter_cons_False by (intros H; by apply H).
    rewrite filter_nil, fmap_nil, app_nil_l.
    destruct (delta_custom_content (choice_delta c)) as [cc|]; [|done].
    pose proof (process_custom_content_nested st cc) as Hn.
    destruct (process_custom_content st cc) as [st2 ev2]. cbn [fst snd app] in *.
    by rewrite (nested_events_id_filter ev2).
  - change (option_list (Some (String a x))) with [String a x].
    rewrite filter_cons_True by done. rewrite filter_nil, fmap_cons, fmap_nil.
    destruct (delta_custom_content (choice_delta c)) as [cc|].
    + set (st1 := {| st_content := _ |}).
      pose proof (process_custom_content_nested st1 cc) as Hn.
      destruct (process_custom_content st1 cc) as [st2 ev2]. cbn [fst snd app] in *.
      rewrite filter_cons_False by (simpl; tauto).
      by rewrite (nested_events_id_filter ev2).
    + cbn [fst snd app]. by rewrite filter_cons_False, filter_nil by (simpl; tauto).
  - change (option_list None) with (@nil string).
    rewrite filter_nil, fmap_nil, app_nil_l.
    destruct (delta_custom_content (choice_delta c)) as [cc|]; [|done].
    pose proof (process_custom_content_nested st cc) as Hn.
    destruct (process_custom_content st cc) as [st2 ev2]. cbn [fst snd app] in *.
    by rewrite (nested_events_id_filter ev2).
Qed.

(** C2. The content of the returned message is the concatenation, in
    arrival order, of the content of every fragment that carries one.
    Each content is forwarded live: in the iteration of the loop that
    reads a chunk, after the calls of the chunks before it and before any
    later chunk is read, the first call made is the append of the content
    of its fragment to the stage of the call itself; the other calls of
    the iteration are those on nested sections.  An empty content is not
    forwarded, and adds nothing.  So the texts appended to the stage of
    the call are the contents in order, also after every prefix of the
    stream, and a text appended to a nested section is always the content
    of a nested-section update. *)
Theorem content_is_concatenation (chunks : list Chunk) :
  let r := response_stream chunks in
  msg_content (res_message r) = Some (String.concat "" (fragment_contents chunks))
  ∧ call_stage_appends (res_events r) = filter (λ s, s ≠ "") (fragment_contents chunks)
  ∧ String.concat "" (call_stage_appends (res_events r))
    = String.concat "" (fragment_contents chunks)
  ∧ (∀ h s, AppendContent (Nested h) s ∈ res_events r →
            ∃ u, u ∈ stage_updates chunks ∧ su_content u = Some s)
  ∧ (∀ pre chunk post, chunks = pre ++ chunk :: post →
       let st := (read_chunks init_state pre).1 in
       let step := process_chunk st chunk in
       res_events r
       = (read_chunks init_state pre).2
         ++ step.2
         ++ (read_chunks step.1 post).2
         ++ closing_events (res_final r)
       ∧ call_stage_appends (read_chunks init_state pre).2
         = filter (λ s, s ≠ "") (fragment_contents pre)
       ∧ step.2
         = (AppendContent CallStage <$> filter (λ s, s ≠ "") (fragment_contents [chunk]))
           ++ filter (λ e, on_nested e) step.2
       ∧ st_content step.1
         = st_content st +:+ String.concat "" (fragment_contents [chunk])).
Proof.
  intros r.
  destruct (response_stream_events chunks) as [Hev Hfin]. fold r in Hev, Hfin.
  pose proof (read_chunks_content init_state chunks) as [Hc Ha].
  assert (Happ : call_stage_appends (res_events r)
                 = filter (λ s, s ≠ "") (fragment_contents chunks)).
  { rewrite Hev, call_stage_appends_app, Ha.
    rewrite (call_stage_appends_none (closing_events _)), app_nil_r; [done|].
    intros s. apply closing_events_no_append. }
  split; [|split; [|split; [|split]]].
  - subst r. unfold response_stream.
    destruct (read_chunks init_state chunks) as [st ev]. simpl in *. by rewrite Hc.
  - exact Happ.
  - by rewrite Happ, concat_filter_nonempty.
  - intros h s. rewrite Hev. intros [H|H]%elem_of_app.
    + by apply (read_chunks_append init_state chunks h s).
    + by apply closing_events_no_append in H.
  - intros pre chunk post Hsplit st step.
    destruct (process_chunk_live st chunk) as [Hlive Hcontent].
    destruct (read_chunks_content init_state pre) as [_ Hpre].
    repeat split; try done.
    rewrite Hev, Hfin, Hsplit, read_chunks_app, read_chunks_cons. cbn [fst snd].
    by rewrite <- !app_assoc.
Qed.

(** *** The status of the nested sections *)

Lemma status_step_is_Some h s e : is_Some s → is_Some (status_step h s e).
Proof.
  intros [x ->]. unfold status_step.
  destruct e as [| |h' ?|[|h']| | |]; try by eexists.
  - destruct (decide (h' = h)); by eexists.
  - destruct (decide (h' = h)); by eexists.
Qed.

Lemma status_run_is_Some h s ev : is_Some s → is_Some (foldl (status_step h) s ev).
Proof.
  revert s. induction ev as [|e ev IH]; intros s Hs; simpl; [done|].
  by apply IH, status_step_is_Some.
Qed.

Lemma status_run_open h s ev name :
  OpenStage h name ∈ ev → is_Some (foldl (status_step h) s ev).
Proof.
  revert s. induction ev as [|e ev IH]; intros s Hin.
  - by apply not_elem_of_nil in Hin.
  - apply elem_of_cons in Hin as [<-|Hin]; simpl.
    + apply status_run_is_Some. rewrite decide_True by done. by eexists.
    + by apply IH.
Qed.

Lemma status_run_opened h ev :
  is_Some (foldl (status_step h) None ev) → ∃ name, OpenStage h name ∈ ev.
Proof.
  induction ev as [|e ev IH] using rev_ind; simpl.
  - by intros [? [=]].
  - rewrite foldl_app. simpl. intros Hs.
    destruct (foldl (status_step h) None ev) as [x|] eqn:Hx.
    + destruct IH as [name ?]; [by eexists|]. exists name.
      apply elem_of_app. by left.
    + destruct e as [| |h' name|[|h']| | |]; simpl in Hs;
        try (by destruct Hs as [? [=]]).
      * destruct (decide (h' = h)) as [->|]; [|by destruct Hs as [? [=]]].
        exists name. apply elem_of_app. right. left.
      * destruct (decide (h' = h)); by destruct Hs as [? [=]].
Qed.

Lemma tracks_opened_nil st : tracks_opened st st [].
Proof. split; [done|]. intros h s Hs. exact Hs. Qed.

Lemma tracks_opened_app st st1 st2 ev1 ev2 :
  tracks_opened st st1 ev1 → tracks_opened st1 st2 ev2 →
  tracks_opened st st2 (ev1 ++ ev2).
Proof.
  intros [R1 H1] [R2 H2]. split; [auto|].
  intros h s Hs. rewrite foldl_app. by apply H2, H1.
Qed.

Lemma process_stage_update_tracks st u :
  tracks_opened st (process_stage_update st u).1 (process_stage_update st u).2.
Proof.
  unfold process_stage_update.
  destruct (stages_map_get _ _) as [k|]; simpl.
  - assert (Hkeep : ∀ ev, Forall (λ e, ∀ name h, e ≠ OpenStage h name) ev →
                          tracks_opened st st ev).
    { intros ev Hev. split; [done|]. intros h s Hs. rewrite <- Hs. clear Hs.
      revert s. induction Hev as [|e ev He _ IH]; intros s; simpl; [done|].
      rewrite IH. unfold status_step.
      destruct e as [| |h' name|[|h']| | |]; try done.
      - by destruct (He name h').
      - destruct (decide (h' = h)); [|done].
        destruct s; split; intros [? [=]]; by eexists. }
    destruct (opt_str_truthy _); [|destruct (opt_list_truthy _); [|destruct (is_completed _)]];
      simpl; apply Hkeep; repeat constructor; try done.
    apply Forall_fmap, Forall_true. done.
  - split.
    + intros Hrec h Hh. simpl in *. rewrite fmap_app. apply elem_of_app.
      destruct (decide (h = st_opened st)) as [->|]; [right; left|].
      left. apply Hrec. lia.
    + intros h s Hs. simpl.
      destruct (decide (st_opened st = h)) as [<-|Hne].
      * split; [lia | by eexists].
      * rewrite Hs. lia.
Qed.

Lemma process_stages_tracks st us :
  tracks_opened st (process_stages st us).1 (process_stages st us).2.
Proof.
  revert st. induction us as [|u us IH]; intros st; simpl.
  - apply tracks_opened_nil.
  - pose proof (process_stage_update_tracks st u) as H1.
    destruct (process_stage_update st u) as [st1 ev1].
    specialize (IH st1).
    destruct (process_stages st1 us) as [st2 ev2]. simpl in *.
    by eapply tracks_opened_app.
Qed.

Lemma tracks_opened_same st st' :
  st_stages_map st' = st_stages_map st → st_opened st' = st_opened st →
  tracks_opened st st' [] ∧ (∀ st2 ev2, tracks_opened st' st2 ev2 → tracks_opened st st2 ev2).
Proof.
  intros Hm Ho.
  assert (H0 : tracks_opened st st' []).
  { split.
    - unfold handles_recorded. by rewrite Hm, Ho.
    - intros h s. simpl. by rewrite Ho. }
  split; [done|]. intros st2 ev2 H2.
  by apply (tracks_opened_app st st' st2 [] ev2).
Qed.

Lemma process_custom_content_tracks st cc :
  tracks_opened st (process_custom_content st cc).1 (process_custom_content st cc).2.
Proof.
  unfold process_custom_content.
  set (st1 := if opt_list_truthy (dcc_attachments cc) then _ else st).
  set (st2 := if truthy (dcc_state cc) then _ else st1).
  assert (Hm : st_stages_map st2 = st_stages_map st ∧ st_opened st2 = st_opened st).
  { subst st2 st1. by repeat case_match. }
  destruct Hm as [Hm Ho].
  destruct (tracks_opened_same st st2 Hm Ho) as [H0 Hk].
  destruct (opt_list_truthy (dcc_stages cc)); [|done].
  apply Hk, process_stages_tracks.
Qed.

Lemma process_delta_tracks st delta :
  tracks_opened st (process_delta st delta).1 (process_delta st delta).2.
Proof.
  unfold process_delta.
  set (p := if opt_str_truthy (delta_content delta) then _ else _).
  assert (Hp : tracks_opened st p.1 p.2).
  { subst p. destruct (opt_str_truthy _); simpl; [|apply tracks_opened_nil].
    split; [done|]. intros h s Hs. exact Hs. }
  destruct p as [st1 ev1]. simpl in Hp.
  destruct (delta_custom_content delta) as [cc|]; [|done].
  pose proof (process_custom_content_tracks st1 cc) as H2.
  destruct (process_custom_content st1 cc) as [st2 ev2]. simpl in *.
  by eapply tracks_opened_app.
Qed.

Lemma read_chunks_tracks st chunks :
  tracks_opened st (read_chunks st chunks).1 (read_chunks st chunks).2.
Proof.
  revert st. induction chunks as [|chunk chunks IH]; intros st.
  - apply tracks_opened_nil.
  - cbn [read_chunks]. unfold process_chunk.
    destruct (chunk_choices chunk) as [|c cs].
    + specialize (IH st). destruct (read_chunks st chunks) as [st2 ev2]. exact IH.
    + pose proof (process_delta_tracks st (choice_delta c)) as H1.
      destruct (process_delta st (choice_delta c)) as [st1 ev1].
      specialize (IH st1).
      destruct (read_chunks st1 chunks) as [st2 ev2]. cbn [fst snd] in *.
      by eapply tracks_opened_app.
Qed.

(** The forced close: closing every stage of [stages_map]. *)
Lemma status_run_closes h s (handles : list nat) :
  foldl (status_step h) s ((λ k, CloseStageSafely (Nested k)) <$> handles)
  = match s with
    | Some x => if decide (h ∈ handles) then Some SectionCompleted else Some x
    | None => None
    end.
Proof.
  revert s. induction handles as [|k handles IH]; intros s.
  - destruct s; [|done]. rewrite decide_False; [done | apply not_elem_of_nil].
  - rewrite fmap_cons. cbn [foldl]. rewrite IH. unfold status_step.
    destruct (decide (k = h)) as [->|Hne].
    + destruct s; [|done].
      destruct (decide (h ∈ h :: handles)) as [_|[]]; [|left].
      by destruct (decide (h ∈ handles)).
    + destruct s; [|done].
      destruct (decide (h ∈ handles)) as [Hin|Hnin];
        destruct (decide (h ∈ k :: handles)) as [Hin'|Hnin']; try done.
      * destruct Hnin'. by right.
      * apply elem_of_cons in Hin' as [?|?]; congruence.
Qed.

Lemma status_run_choice h s (atts : list Attachment) v :
  foldl (status_step h) s ((ChoiceAddAttachment <$> atts) ++ [ChoiceSetState v]) = s.
Proof.
  rewrite foldl_app. simpl. induction atts as [|a atts IH]; simpl; done.
Qed.

Lemma section_status_response chunks h :
  section_status (res_events (response_stream chunks)) h
  = if decide (h < st_opened (res_final (response_stream chunks)))%nat
    then Some SectionCompleted else None.
Proof.
  destruct (response_stream_events chunks) as [-> ->].
  destruct (read_chunks_tracks init_state chunks) as [Hrec Hst].
  specialize (Hst h None).
  set (st := (read_chunks init_state chunks).1) in *.
  set (ev := (read_chunks init_state chunks).2) in *.
  unfold section_status, closing_events. rewrite !foldl_app.
  fold (foldl (status_step h) (foldl (status_step h) None ev)).
  rewrite <- foldl_app, status_run_choice.
  replace ((λ kv : Z * nat, CloseStageSafely (Nested kv.2)) <$> st_stages_map st)
    with ((λ k, CloseStageSafely (Nested k)) <$> (st_stages_map st).*2)
    by (by rewrite <- list_fmap_compose).
  rewrite status_run_closes.
  assert (H0 : is_Some (@None SectionStatus) ↔ (h < st_opened init_state)%nat).
  { simpl. split; [by intros [? [=]] | lia]. }
  apply Hst in H0.
  destruct (decide (h < st_opened st)%nat) as [Hlt|Hge].
  - destruct (foldl (status_step h) None ev) as [x|] eqn:Hx.
    + rewrite decide_True; [done|]. apply Hrec; [|done].
      intros k Hk. simpl in Hk. lia.
    + apply H0 in Hlt. by destruct Hlt as [? [=]].
  - destruct (foldl (status_step h) None ev) as [x|] eqn:Hx; [|done].
    destruct Hge. apply H0. by eexists.
Qed.

(** C4. When the gateway returns, no nested section is open: a section
    has been opened during the call exactly when its status is completed
    at the end, whatever the stream sent. *)
Theorem forced_close (chunks : list Chunk) (h : nat) :
  let r := response_stream chunks in
  section_status (res_events r) h ≠ Some SectionOpen
  ∧ ((∃ name, OpenStage h name ∈ res_events r)
     ↔ section_status (res_events r) h = Some SectionCompleted).
Proof.
  intros r. subst r. split.
  - rewrite section_status_response. by case_decide.
  - split.
    + intros [name Hin].
      pose proof (status_run_open h None _ name Hin) as Hs.
      fold (section_status (res_events (response_stream chunks)) h) in Hs.
      rewrite section_status_response in *. case_decide; [done|].
      by destruct Hs as [? [=]].
    + intros Hc. apply status_run_opened.
      fold (section_status (res_events (response_stream chunks)) h).
      rewrite Hc. by eexists.
Qed.

(** *** One nested-section update *)

Lemma is_completed_iff (o : option string) :
  is_completed o = true ↔ o = Some "completed".
Proof.
  destruct o as [x|]; simpl; [|split; congruence].
  rewrite bool_decide_eq_true. split; congruence.
Qed.

Lemma process_known st u h :
  stages_map_get (su_index u) (st_stages_map st) = Some h →
  process_stage_update st u = (st, payload_events h (applied_payload u)).
Proof.
  intros Hk. unfold process_stage_update, applied_payload. rewrite Hk.
  destruct (su_content u) as [[|a c]|]; simpl.
  - destruct (su_attachments u) as [[|x l]|]; simpl; try done;
      destruct (is_completed (su_status u)) eqn:Hc;
      case_decide as Hd; try done;
      solve [ apply is_completed_iff in Hc; done
            | apply is_completed_iff in Hd; congruence ].
  - done.
  - destruct (su_attachments u) as [[|x l]|]; simpl; try done;
      destruct (is_completed (su_status u)) eqn:Hc;
      case_decide as Hd; try done;
      solve [ apply is_completed_iff in Hc; done
            | apply is_completed_iff in Hd; congruence ].
Qed.

Lemma process_unknown st u :
  stages_map_get (su_index u) (st_stages_map st) = None →
  process_stage_update st u
  = ({| st_content := st_content st;
        st_attachments := st_attachments st;
        st_state := st_state st;
        st_stages_map := st_stages_map st ++ [(su_index u, st_opened st)];
        st_opened := S (st_opened st) |},
     [OpenStage (st_opened st) (su_name u)]).
Proof. intros Hk. unfold process_stage_update. by rewrite Hk. Qed.

(** C10. On the first sighting of an index the loop only opens a section
    with the name of the update and records it: whatever content,
    attachments or status the update carries is dropped, the step is the
    same as for the bare update.  For a recorded index the step leaves the
    loop state alone and applies one kind of payload to the recorded
    section: content before attachments, attachments before the completed
    status. *)
Theorem first_sighting_and_priority (st : AggState) (u : StageUpdate) :
  match stages_map_get (su_index u) (st_stages_map st) with
  | None =>
      process_stage_update st u = process_stage_update st (bare u)
      ∧ (process_stage_update st u).2 = [OpenStage (st_opened st) (su_name u)]
      ∧ st_stages_map (process_stage_update st u).1
        = st_stages_map st ++ [(su_index u, st_opened st)]
  | Some h =>
      (process_stage_update st u).1 = st
      ∧ (process_stage_update st u).2 = payload_events h (applied_payload u)
      ∧ (process_stage_update st u).2
        = match su_content u, su_attachments u with
          | Some (String a c), _ => [AppendContent (Nested h) (String a c)]
          | _, Some (a :: l) => AddAttachment (Nested h) <$> (a :: l)
          | _, _ =>
              if decide (su_status u = Some "completed")
              then [CloseStageSafely (Nested h)] else []
          end
  end.
Proof.
  destruct (stages_map_get _ _) as [h|] eqn:Hk.
  - rewrite (process_known st u h Hk). simpl. repeat split.
    unfold applied_payload.
    destruct (su_content u) as [[|a c]|]; simpl;
      try destruct (su_attachments u) as [[|x l]|]; simpl; try done;
      by case_decide.
  - rewrite (process_unknown st u Hk), (process_unknown st (bare u) Hk). done.
Qed.

(** *** Sequences of nested-section updates *)

Lemma process_stages_app st l1 l2 :
  process_stages st (l1 ++ l2)
  = (state_after (state_after st l1) l2,
     events_of st l1 ++ events_of (state_after st l1) l2).
Proof.
  unfold state_after, events_of. revert st.
  induction l1 as [|u l1 IH]; intros st; simpl.
  - by destruct (process_stages st l2).
  - destruct (process_stage_update st u) as [st1 ev1].
    rewrite IH. destruct (process_stages st1 l1) as [st2 ev2]. simpl.
    by rewrite app_assoc.
Qed.

Lemma process_stages_cons st u l :
  process_stages st (u :: l)
  = (state_after (process_stage_update st u).1 l,
     (process_stage_update st u).2 ++ events_of (process_stage_update st u).1 l).
Proof.
  unfold state_after, events_of. simpl.
  destruct (process_stage_update st u) as [st1 ev1]. cbn [fst snd].
  by destruct (process_stages st1 l).
Qed.

Lemma events_of_app st l1 l2 :
  events_of st (l1 ++ l2) = events_of st l1 ++ events_of (state_after st l1) l2.
Proof. unfold events_of at 1. by rewrite process_stages_app. Qed.

Lemma state_after_app st l1 l2 :
  state_after st (l1 ++ l2) = state_after (state_after st l1) l2.
Proof. unfold state_after at 1. by rewrite process_stages_app. Qed.

Lemma events_of_cons st u l :
  events_of st (u :: l)
  = (process_stage_update st u).2 ++ events_of (process_stage_update st u).1 l.
Proof. unfold events_of at 1. by rewrite process_stages_cons. Qed.

Lemma state_after_cons st u l :
  state_after st (u :: l) = state_after (process_stage_update st u).1 l.
Proof. unfold state_after at 1. by rewrite process_stages_cons. Qed.

Lemma stages_map_get_snoc idx m k h :
  stages_map_get idx (m ++ [(k, h)])
  = match stages_map_get idx m with
    | Some h' => Some h'
    | None => if decide (idx = k) then Some h else None
    end.
Proof.
  induction m as [|[k' h'] m IH]; simpl; [done|].
  by destruct (decide (idx = k')).
Qed.

(** A recorded index keeps its stage. *)
Lemma process_stage_update_keeps st u idx h :
  stages_map_get idx (st_stages_map st) = Some h →
  stages_map_get idx (st_stages_map (process_stage_update st u).1) = Some h.
Proof.
  intros Hk.
  destruct (stages_map_get (su_index u) (st_stages_map st)) as [h'|] eqn:Hu.
  - by rewrite (process_known st u h' Hu).
  - rewrite (process_unknown st u Hu). simpl. by rewrite stages_map_get_snoc, Hk.
Qed.

Lemma state_after_keeps st us idx h :
  stages_map_get idx (st_stages_map st) = Some h →
  stages_map_get idx (st_stages_map (state_after st us)) = Some h.
Proof.
  unfold state_after. revert st. induction us as [|u us IH]; intros st Hk; simpl; [done|].
  pose proof (process_stage_update_keeps st u idx h Hk) as H1.
  destruct (process_stage_update st u) as [st1 ev1]. specialize (IH st1 H1).
  by destruct (process_stages st1 us).
Qed.

(** An index that no update names stays unknown. *)
Lemma state_after_unknown st us idx :
  stages_map_get idx (st_stages_map st) = None →
  idx ∉ (su_index <$> us) →
  stages_map_get idx (st_stages_map (state_after st us)) = None.
Proof.
  unfold state_after. revert st. induction us as [|u us IH]; intros st Hk Hn; simpl; [done|].
  rewrite fmap_cons in Hn. apply not_elem_of_cons in Hn as [Hne Hn].
  assert (H1 : stages_map_get idx (st_stages_map (process_stage_update st u).1) = None).
  { destruct (stages_map_get (su_index u) (st_stages_map st)) as [h'|] eqn:Hu.
    - by rewrite (process_known st u h' Hu).
    - rewrite (process_unknown st u Hu). simpl.
      rewrite stages_map_get_snoc, Hk. by rewrite decide_False. }
  destruct (process_stage_update st u) as [st1 ev1]. specialize (IH st1 H1 Hn).
  by destruct (process_stages st1 us).
Qed.

Lemma opened_handles_app ev1 ev2 :
  opened_handles (ev1 ++ ev2) = opened_handles ev1 ++ opened_handles ev2.
Proof. apply omap_app. Qed.

Lemma opened_handles_payload h p : opened_handles (payload_events h p) = [].
Proof.
  destruct p as [c|l| |]; try reflexivity.
  unfold opened_handles. simpl. induction l as [|a l IH]; [done | exact IH].
Qed.

(** The handles are given out in order, each once. *)
Lemma opened_handles_events st us :
  (st_opened st ≤ st_opened (state_after st us))%nat
  ∧ opened_handles (events_of st us)
    = seq (st_opened st) (st_opened (state_after st us) - st_opened st).
Proof.
  revert st. induction us as [|u us IH]; intros st.
  - unfold state_after, events_of. simpl. by rewrite Nat.sub_diag.
  - unfold state_after, events_of. rewrite process_stages_cons. cbn [fst snd].
    rewrite opened_handles_app.
    destruct (stages_map_get (su_index u) (st_stages_map st)) as [h|] eqn:Hu.
    + rewrite (process_known st u h Hu). cbn [fst snd].
      rewrite opened_handles_payload. apply IH.
    + rewrite (process_unknown st u Hu). cbn [fst snd].
      set (st1 := {| st_content := _ |}).
      destruct (IH st1) as [Hle ->]. subst st1. simpl in *.
      split; [lia|].
      replace (st_opened (state_after _ us) - st_opened st)%nat
        with (S (st_opened (state_after
                {| st_content := st_content st;
                   st_attachments := st_attachments st;
                   st_state := st_state st;
                   st_stages_map := st_stages_map st ++ [(su_index u, st_opened st)];
                   st_opened := S (st_opened st) |} us) - S (st_opened st)))
        by lia.
      reflexivity.
Qed.

Lemma status_run_completed h ev :
  h ∉ opened_handles ev →
  foldl (status_step h) (Some SectionCompleted) ev = Some SectionCompleted.
Proof.
  induction ev as [|e ev IH]; intros Hn; [done|].
  assert (Hn' : h ∉ opened_handles ev).
  { intros Hin. apply Hn. change (e :: ev) with ([e] ++ ev).
    rewrite opened_handles_app. apply elem_of_app. by right. }
  cbn [foldl].
  assert (Hstep : status_step h (Some SectionCompleted) e = Some SectionCompleted).
  { destruct e as [| |h' name|[|h']| | |]; simpl; try done.
    - destruct (decide (h' = h)) as [->|]; [|done].
      destruct Hn. unfold opened_handles. simpl. left.
    - by destruct (decide (h' = h)). }
  rewrite Hstep. by apply IH.
Qed.

(** A completed section stays completed when no handle is given out twice. *)
Lemma completed_stays h ev1 ev2 :
  NoDup (opened_handles (ev1 ++ ev2)) →
  section_status ev1 h = Some SectionCompleted →
  section_status (ev1 ++ ev2) h = Some SectionCompleted.
Proof.
  intros Hnd Hc. unfold section_status in *. rewrite foldl_app, Hc.
  apply status_run_completed.
  rewrite opened_handles_app in Hnd. apply NoDup_app in Hnd as (_ & Hdisj & _).
  intros Hin. apply (Hdisj h); [|done].
  destruct (status_run_opened h ev1) as [name Hname]; [rewrite Hc; by eexists|].
  unfold opened_handles. apply list_elem_of_omap. by exists (OpenStage h name).
Qed.

(** *** The nested calls of a whole stream *)

Lemma nested_events_app ev1 ev2 :
  nested_events (ev1 ++ ev2) = nested_events ev1 ++ nested_events ev2.
Proof. apply filter_app. Qed.

Lemma nested_events_id ev :
  Forall (λ e, on_nested e = true) ev → nested_events ev = ev.
Proof.
  unfold nested_events. induction 1 as [|e ev He _ IH]; [done|].
  rewrite filter_cons_True by (by rewrite He). by rewrite IH.
Qed.

Lemma process_stage_update_sections st st' u :
  same_sections st st' →
  (process_stage_update st u).2 = (process_stage_update st' u).2
  ∧ same_sections (process_stage_update st u).1 (process_stage_update st' u).1.
Proof.
  intros [Hm Ho]. unfold process_stage_update. rewrite Hm, Ho.
  destruct (stages_map_get _ _) as [h|]; simpl.
  - repeat case_match; simpl; (split; [done|]); by split.
  - split; [done|]. split; simpl; congruence.
Qed.

Lemma process_stages_sections st st' us :
  same_sections st st' →
  events_of st us = events_of st' us
  ∧ same_sections (state_after st us) (state_after st' us).
Proof.
  revert st st'. induction us as [|u us IH]; intros st st' Hs.
  - done.
  - unfold events_of, state_after. rewrite !process_stages_cons. cbn [fst snd].
    destruct (process_stage_update_sections st st' u Hs) as [-> Hs1].
    destruct (IH _ _ Hs1) as [-> Hs2]. done.
Qed.

Lemma process_delta_nested st delta :
  let us := match delta_custom_content delta with
            | Some cc => default [] (dcc_stages cc)
            | None => []
            end in
  nested_events (process_delta st delta).2 = events_of st us
  ∧ same_sections (process_delta st delta).1 (state_after st us).
Proof.
  intros us. unfold process_delta.
  set (p := if opt_str_truthy (delta_content delta) then _ else _).
  assert (Hp : nested_events p.2 = [] ∧ same_sections p.1 st).
  { subst p. by destruct (opt_str_truthy _). }
  destruct p as [st1 ev1]. destruct Hp as [Hn Hs]. simpl in Hn, Hs.
  subst us. destruct (delta_custom_content delta) as [cc|]; [|done].
  unfold process_custom_content.
  set (sta := if opt_list_truthy (dcc_attachments cc) then _ else st1).
  set (stb := if truthy (dcc_state cc) then _ else sta).
  assert (Hb : same_sections stb st).
  { destruct Hs as [Hm Ho]. subst stb sta. by repeat case_match. }
  destruct (opt_list_truthy (dcc_stages cc)) eqn:Ht.
  - destruct (process_stages_sections stb st (default [] (dcc_stages cc)) Hb) as [He Hs2].
    pose proof (process_stages_nested stb (default [] (dcc_stages cc))) as Hf.
    unfold events_of, state_after in *.
    destruct (process_stages stb _) as [st3 ev3]. simpl in *.
    by rewrite nested_events_app, Hn, (nested_events_id ev3).
  - assert (Hnil : default [] (dcc_stages cc) = []).
    { by destruct (dcc_stages cc) as [[|? ?]|]. }
    rewrite Hnil. simpl. by rewrite app_nil_r.
Qed.

Lemma read_chunks_nested st chunks :
  nested_events (read_chunks st chunks).2 = events_of st (stage_updates chunks)
  ∧ same_sections (read_chunks st chunks).1 (state_after st (stage_updates chunks)).
Proof.
  revert st. induction chunks as [|chunk chunks IH]; intros st.
  - done.
  - rewrite stage_updates_cons. cbn [read_chunks]. unfold process_chunk.
    destruct (chunk_choices chunk) as [|c cs].
    + specialize (IH st). destruct (read_chunks st chunks) as [st2 ev2]. exact IH.
    + pose proof (process_delta_nested st (choice_delta c)) as [H1 H2].
      destruct (process_delta st (choice_delta c)) as [st1 ev1].
      specialize (IH st1) as [I1 I2].
      destruct (read_chunks st1 chunks) as [st2 ev2]. cbn [fst snd] in *.
      unfold events_of, state_after in *. rewrite process_stages_app. cbn [fst snd].
      destruct (process_stages_sections _ _ (stage_updates chunks) H2) as [He Hs].
      unfold events_of, state_after in *.
      rewrite nested_events_app, H1, I1, He. split; [done|].
      destruct I2 as [Im Io], Hs as [Hm Ho]. split; congruence.
Qed.

(** The nested calls of an agent call are those of the loop over its
    updates, followed by the forced closes. *)
Lemma nested_events_response chunks :
  nested_events (res_events (response_stream chunks))
  = events_of init_state (stage_updates chunks)
    ++ forced_closes (state_after init_state (stage_updates chunks)).
Proof.
  destruct (response_stream_events chunks) as [-> _].
  destruct (read_chunks_nested init_state chunks) as [Hn [Hm Ho]].
  rewrite nested_events_app, Hn. f_equal.
  unfold closing_events, forced_closes. rewrite <- Hm.
  rewrite nested_events_app, nested_events_id.
  - unfold nested_events. rewrite filter_app.
    assert (Hnone : ∀ l, filter (λ e, on_nested e) (ChoiceAddAttachment <$> l) = []).
    { induction l as [|a l IH]; [done|].
      rewrite fmap_cons, filter_cons_False; [exact IH | simpl; tauto]. }
    rewrite Hnone. simpl. rewrite filter_cons_False, filter_nil by (simpl; tauto).
    by rewrite app_nil_r.
  - apply Forall_fmap, Forall_true. done.
Qed.

Lemma opened_handles_forced_closes st : opened_handles (forced_closes st) = [].
Proof.
  unfold forced_closes, opened_handles.
  induction (st_stages_map st) as [|kv m IH]; [done | exact IH].
Qed.

(** C3, as the loop implements it, on a run in which no update reaches a
    section after its completed marker.  Take a stream whose updates are
    [pre ++ u0 :: mid ++ u :: post], where [u0] is the first update for
    its index and [u] a later update for the same index.  The nested calls
    of the agent call are then: those of [pre]; the opening of one new
    section [h] with the name of [u0]; those of [mid]; the one payload of
    [u], applied to that same section [h] (content if it carries content,
    otherwise attachments, otherwise the close on a completed status);
    those of [post] from the unchanged loop state; the forced closes.  No
    section is opened twice.  A section that is completed stays completed,
    and a repeated close leaves it so. *)
Theorem nested_sections_protocol (chunks : list Chunk)
    (pre mid post : list StageUpdate) (u0 u : StageUpdate) :
  no_late_calls (res_events (response_stream chunks)) = true →
  stage_updates chunks = pre ++ u0 :: mid ++ u :: post →
  su_index u0 ∉ (su_index <$> pre) →
  su_index u = su_index u0 →
  let st0 := state_after init_state pre in
  let h := st_opened st0 in
  let st1 := (process_stage_update st0 u0).1 in
  let st2 := state_after st1 mid in
  let calls := nested_events (res_events (response_stream chunks)) in
  calls = events_of init_state pre
          ++ [OpenStage h (su_name u0)]
          ++ events_of st1 mid
          ++ payload_events h (applied_payload u)
          ++ events_of st2 post
          ++ forced_closes (state_after st2 post)
  ∧ NoDup (opened_handles calls)
  ∧ (∀ ev1 ev2, calls = ev1 ++ ev2 →
                section_status ev1 h = Some SectionCompleted →
                section_status calls h = Some SectionCompleted)
  ∧ status_step h (Some SectionCompleted) (CloseStageSafely (Nested h))
    = Some SectionCompleted.
Proof.
  intros _ Hus Hfirst Hidx st0 h st1 st2 calls.
  assert (Hcalls : calls = events_of init_state (stage_updates chunks)
                           ++ forced_closes (state_after init_state (stage_updates chunks))).
  { apply nested_events_response. }
  assert (Hnd : NoDup (opened_handles calls)).
  { rewrite Hcalls, opened_handles_app, opened_handles_forced_closes, app_nil_r.
    destruct (opened_handles_events init_state (stage_updates chunks)) as [_ ->].
    apply NoDup_seq. }
  assert (H0 : stages_map_get (su_index u0) (st_stages_map st0) = None).
  { by apply state_after_unknown. }
  assert (H1 : stages_map_get (su_index u) (st_stages_map st2) = Some h).
  { apply state_after_keeps. subst st1. rewrite (process_unknown st0 u0 H0). simpl.
    by rewrite Hidx, stages_map_get_snoc, H0, decide_True. }
  repeat split.
  - rewrite Hcalls, Hus.
    assert (Hev0 : (process_stage_update st0 u0).2 = [OpenStage h (su_name u0)]).
    { by rewrite (process_unknown st0 u0 H0). }
    rewrite events_of_app, state_after_app, events_of_cons, state_after_cons.
    fold st0. rewrite Hev0. fold st1.
    rewrite events_of_app, state_after_app, events_of_cons, state_after_cons.
    fold st2. rewrite (process_known st2 u h H1). cbn [fst snd].
    by rewrite <- !app_assoc.
  - exact Hnd.
  - intros ev1 ev2 Heq Hc. rewrite Heq. apply completed_stays; [|done].
    by rewrite <- Heq.
  - simpl. by rewrite decide_True.
Qed.

Lemma nested_sections_protocol_witness :
  let chunks := sample_stream in
  let pre := [] in
  let u0 := update_open in
  let mid := [update_both] in
  let u := update_done in
  let post := [] in
  (no_late_calls (res_events (response_stream chunks)) = true
   ∧ stage_updates chunks = pre ++ u0 :: mid ++ u :: post
   ∧ (su_index u0 ∉ (su_index <$> pre))
   ∧ su_index u = su_index u0)
  ∧ nested_events (res_events (response_stream chunks))
    = [OpenStage 0 (Some "Searching");
       AppendContent (Nested 0) "found";
       CloseStageSafely (Nested 0);
       CloseStageSafely (Nested 0)].
Proof.
  intros chunks pre u0 mid u post.
  assert (H0 : no_late_calls (res_events (response_stream chunks)) = true)
    by reflexivity.
  assert (H1 : stage_updates chunks = pre ++ u0 :: mid ++ u :: post) by reflexivity.
  assert (H2 : su_index u0 ∉ (su_index <$> pre)) by apply not_elem_of_nil.
  assert (H3 : su_index u = su_index u0) by reflexivity.
  split; [by repeat split|].
  destruct (nested_sections_protocol chunks pre mid post u0 u H0 H1 H2 H3) as [-> _].
  reflexivity.
Defined.

(** C3, as it is worded, fails on the sample stream, in which no update
    follows the completed marker: the attachment that comes together with
    content is never attached. *)
Lemma nested_sections_counterexample :
  res_events (response_stream sample_stream)
  = [OpenStage 0 (Some "Searching");
     AppendContent (Nested 0) "found";
     CloseStageSafely (Nested 0);
     CloseStageSafely (Nested 0);
     ChoiceSetState (exported_state PNone)]
  ∧ no_late_calls (res_events (response_stream sample_stream)) = true
  ∧ ¬ attaches_what_it_carries sample_updates.
Proof.
  split; [reflexivity|]. split; [reflexivity|].
  intros H.
  specialize (H [update_open] update_both [update_done] 0%nat
                [sample_attachment] sample_attachment eq_refl eq_refl eq_refl).
  assert (Hin : sample_attachment ∈ [sample_attachment]) by left.
  apply H in Hin. vm_compute in Hin.
  apply list_elem_of_singleton in Hin. discriminate Hin.
Qed.

Example scenario_response :
  response_stream scenario_stream
  = {| res_message :=
         {| msg_role := ASSISTANT; msg_content := Some "Hello";
            msg_custom_content := None |};
       res_events :=
         [ AppendContent CallStage "Hel";
           OpenStage 0 (Some "Searching");
           AppendContent CallStage "lo";
           CloseStageSafely (Nested 0);
           CloseStageSafely (Nested 0);
           ChoiceAddAttachment sample_attachment;
           ChoiceSetState (exported_state PNone) ];
       res_final :=
         {| st_content := "Hello";
            st_attachments := [sample_attachment];
            st_state := PNone;
            st_stages_map := [(0, 0%nat)];
            st_opened := 1 |} |}.
Proof. reflexivity. Qed.

(** *** Attachments and state of a stream *)

Lemma fragment_attachments_cons chunk chunks :
  fragment_attachments (chunk :: chunks)
  = match chunk_choices chunk with
    | c :: _ =>
        match delta_custom_content (choice_delta c) with
        | Some cc => default [] (dcc_attachments cc)
        | None => []
        end
    | [] => []
    end ++ fragment_attachments chunks.
Proof.
  unfold fragment_attachments, fragments. simpl.
  destruct (chunk_choices chunk) as [|c cs]; reflexivity.
Qed.

Lemma fragment_states_cons chunk chunks :
  fragment_states (chunk :: chunks)
  = match chunk_choices chunk with
    | c :: _ => option_list (dcc_state <$> delta_custom_content (choice_delta c))
    | [] => []
    end ++ fragment_states chunks.
Proof.
  unfold fragment_states, fragments. simpl.
  destruct (chunk_choices chunk) as [|c cs]; simpl; [done|].
  by destruct (delta_custom_content (choice_delta c)).
Qed.

Lemma last_truthy_app v0 vs ws :
  last_truthy v0 (vs ++ ws) = last_truthy (last_truthy v0 vs) ws.
Proof.
  unfold last_truthy. rewrite filter_app, last_app.
  by destruct (last (filter _ ws)).
Qed.

Lemma process_custom_content_carried st cc :
  st_attachments (process_custom_content st cc).1
  = st_attachments st ++ default [] (dcc_attachments cc)
  ∧ st_state (process_custom_content st cc).1 = last_truthy (st_state st) [dcc_state cc].
Proof.
  unfold process_custom_content.
  set (st1 := if opt_list_truthy (dcc_attachments cc) then _ else st).
  set (st2 := if truthy (dcc_state cc) then _ else st1).
  assert (H2 : st_attachments st2 = st_attachments st ++ default [] (dcc_attachments cc)
               ∧ st_state st2 = last_truthy (st_state st) [dcc_state cc]).
  { subst st2 st1. unfold last_truthy.
    destruct (truthy (dcc_state cc)) eqn:Ht.
    - rewrite filter_cons_True by done. simpl.
      destruct (dcc_attachments cc) as [[|a l]|]; simpl; by rewrite ?app_nil_r.
    - rewrite filter_cons_False by (by rewrite Ht). simpl.
      destruct (dcc_attachments cc) as [[|a l]|]; simpl; by rewrite ?app_nil_r. }
  destruct (opt_list_truthy (dcc_stages cc)); [|done].
  destruct (process_stages_answer st2 (default [] (dcc_stages cc))) as (_ & -> & ->).
  done.
Qed.

Lemma process_delta_carried st delta :
  st_attachments (process_delta st delta).1
  = st_attachments st
    ++ match delta_custom_content delta with
       | Some cc => default [] (dcc_attachments cc)
       | None => []
       end
  ∧ st_state (process_delta st delta).1
    = last_truthy (st_state st) (option_list (dcc_state <$> delta_custom_content delta)).
Proof.
  unfold process_delta.
  set (p := if opt_str_truthy (delta_content delta) then _ else _).
  assert (Hp : st_attachments p.1 = st_attachments st ∧ st_state p.1 = st_state st).
  { subst p. by destruct (opt_str_truthy _). }
  destruct p as [st1 ev1]. destruct Hp as [Ha Hs]. simpl in Ha, Hs.
  destruct (delta_custom_content delta) as [cc|]; simpl.
  - destruct (process_custom_content_carried st1 cc) as [H1 H2].
    destruct (process_custom_content st1 cc) as [st2 ev2]. simpl in *.
    by rewrite H1, H2, Ha, Hs.
  - by rewrite app_nil_r.
Qed.

Lemma read_chunks_carried st chunks :
  st_attachments (read_chunks st chunks).1
  = st_attachments st ++ fragment_attachments chunks
  ∧ st_state (read_chunks st chunks).1
    = last_truthy (st_state st) (fragment_states chunks).
Proof.
  revert st. induction chunks as [|chunk chunks IH]; intros st.
  - simpl. by rewrite app_nil_r.
  - rewrite fragment_attachments_cons, fragment_states_cons.
    cbn [read_chunks]. unfold process_chunk.
    destruct (chunk_choices chunk) as [|c cs].
    + specialize (IH st). destruct (read_chunks st chunks) as [st2 ev2]. exact IH.
    + pose proof (process_delta_carried st (choice_delta c)) as [H1 H2].
      destruct (process_delta st (choice_delta c)) as [st1 ev1].
      specialize (IH st1) as [I1 I2].
      destruct (read_chunks st1 chunks) as [st2 ev2]. cbn [fst snd] in *.
      by rewrite I1, I2, H1, H2, last_truthy_app, app_assoc.
Qed.

(** While the stream is read, nothing is added to the choice. *)
Lemma read_chunks_no_choice_attachment st chunks :
  choice_attachments (read_chunks st chunks).2 = [].
Proof.
  assert (Hn : ∀ ev, Forall (λ e, on_nested e = true) ev → choice_attachments ev = []).
  { induction 1 as [|e ev He _ IH]; [done|].
    unfold choice_attachments in *.
    destruct e as [[|h]| | | | | |]; simpl in *; first [discriminate He | exact IH]. }
  unfold choice_attachments in *.
  revert st. induction chunks as [|chunk chunks IH]; intros st; [done|].
  cbn [read_chunks]. unfold process_chunk.
  destruct (chunk_choices chunk) as [|c cs].
  - specialize (IH st). by destruct (read_chunks st chunks).
  - assert (H1 : omap (λ e, match e with ChoiceAddAttachment a => Some a | _ => None end)
                   (process_delta st (choice_delta c)).2 = []).
    { unfold process_delta.
      destruct (opt_str_truthy (delta_content (choice_delta c)));
        destruct (delta_custom_content (choice_delta c)) as [cc|]; try done.
      - pose proof (process_custom_content_nested
          {| st_content := st_content st +:+ default "" (delta_content (choice_delta c));
             st_attachments := st_attachments st;
             st_state := st_state st;
             st_stages_map := st_stages_map st;
             st_opened := st_opened st |} cc) as Hf.
        destruct (process_custom_content _ cc) as [st2 ev2]. simpl in *.
        by apply Hn.
      - pose proof (process_custom_content_nested st cc) as Hf.
        destruct (process_custom_content st cc) as [st2 ev2]. simpl in *.
        by apply Hn. }
    destruct (process_delta st (choice_delta c)) as [st1 ev1].
    specialize (IH st1).
    destruct (read_chunks st1 chunks) as [st2 ev2]. cbn [fst snd] in *.
    by rewrite omap_app, H1, IH.
Qed.

(** X1. The attachments collected from a stream are those of all its
    fragments, in arrival order and with repetitions; they are added to the
    choice one by one, in that order, only after the stream has ended. *)
Theorem attachments_in_arrival_order (chunks : list Chunk) :
  let r := response_stream chunks in
  st_attachments (res_final r) = fragment_attachments chunks
  ∧ choice_attachments (res_events r) = fragment_attachments chunks
  ∧ choice_attachments (read_chunks init_state chunks).2 = [].
Proof.
  intros r. subst r.
  destruct (response_stream_events chunks) as [-> ->].
  destruct (read_chunks_carried init_state chunks) as [Ha _]. simpl in Ha.
  split; [exact Ha|]. split; [|apply read_chunks_no_choice_attachment].
  unfold choice_attachments at 1. rewrite omap_app.
  fold (choice_attachments (read_chunks init_state chunks).2).
  rewrite read_chunks_no_choice_attachment. simpl.
  unfold closing_events. rewrite !omap_app, Ha.
  assert (H1 : ∀ m : list (Z * nat),
             omap (λ e, match e with ChoiceAddAttachment a => Some a | _ => None end)
               ((λ kv, CloseStageSafely (Nested kv.2)) <$> m) = []).
  { induction m as [|kv m IH]; [done | exact IH]. }
  assert (H2 : ∀ l : list Attachment,
             omap (λ e, match e with ChoiceAddAttachment a => Some a | _ => None end)
               (ChoiceAddAttachment <$> l) = l).
  { induction l as [|a l IH]; [done|]. simpl. f_equal. exact IH. }
  rewrite H1, H2. simpl. by rewrite app_nil_r.
Qed.

(** X2. The state kept from a stream is the last truthy state that a
    fragment carries ([None] when there is none): a later truthy state
    replaces an earlier one, a falsy one (absent, empty dict, ...) does
    not.  The state set on the choice is the wrapper around it. *)
Theorem state_last_write_wins (chunks : list Chunk) :
  let r := response_stream chunks in
  st_state (res_final r) = last_truthy PNone (fragment_states chunks)
  ∧ last (res_events r)
    = Some (ChoiceSetState (exported_state (last_truthy PNone (fragment_states chunks)))).
Proof.
  intros r. subst r.
  assert (Hs : st_state (res_final (response_stream chunks))
               = last_truthy PNone (fragment_states chunks)).
  { destruct (response_stream_events chunks) as [_ ->].
    by destruct (read_chunks_carried init_state chunks) as [_ ->]. }
  split; [exact Hs|]. by rewrite response_stream_exports, Hs.
Qed.

(** *** The stages recorded *)

Lemma stages_map_get_None idx m : stages_map_get idx m = None ↔ idx ∉ m.*1.
Proof.
  induction m as [|[k h] m IH]; simpl.
  - split; [intros _; apply not_elem_of_nil | done].
  - destruct (decide (idx = k)) as [->|Hne].
    + split; [done|]. intros H. destruct H. left.
    + rewrite IH. rewrite not_elem_of_cons. tauto.
Qed.

Lemma process_stage_update_numbered st u :
  well_numbered st →
  well_numbered (process_stage_update st u).1
  ∧ ∀ idx, idx ∈ (st_stages_map (process_stage_update st u).1).*1
           ↔ idx ∈ (st_stages_map st).*1 ∨ idx = su_index u.
Proof.
  intros (Hnd & Hh & Ho).
  destruct (stages_map_get (su_index u) (st_stages_map st)) as [h|] eqn:Hu.
  - rewrite (process_known st u h Hu). simpl. split; [done|].
    intros idx. split; [by left|]. intros [?| ->]; [done|].
    destruct (decide (su_index u ∈ (st_stages_map st).*1)) as [|Hn]; [done|].
    apply stages_map_get_None in Hn. congruence.
  - rewrite (process_unknown st u Hu). simpl. split.
    + unfold well_numbered. simpl. rewrite !fmap_app, length_app. simpl.
      split; [|split].
      * apply NoDup_app. split; [done|]. split; [|apply NoDup_singleton].
        intros x Hx [= ->]%list_elem_of_singleton.
        by apply stages_map_get_None in Hu.
      * rewrite Hh, Ho. replace (length (st_stages_map st) + 1)%nat
          with (S (length (st_stages_map st))) by lia.
        by rewrite seq_S.
      * lia.
    + intros idx. rewrite fmap_app, elem_of_app. simpl.
      by rewrite list_elem_of_singleton.
Qed.

Lemma state_after_numbered st us :
  well_numbered st →
  well_numbered (state_after st us)
  ∧ ∀ idx, idx ∈ (st_stages_map (state_after st us)).*1
           ↔ idx ∈ (st_stages_map st).*1 ∨ idx ∈ (su_index <$> us).
Proof.
  revert st. induction us as [|u us IH]; intros st Hw.
  - split; [done|]. intros idx. split; [by left|].
    intros [?|H]; [done | by apply not_elem_of_nil in H].
  - rewrite state_after_cons.
    destruct (process_stage_update_numbered st u Hw) as [Hw1 Hk1].
    destruct (IH _ Hw1) as [Hw2 Hk2]. split; [done|].
    intros idx. rewrite Hk2, Hk1, fmap_cons, elem_of_cons. tauto.
Qed.

Lemma process_stage_update_keys st u :
  (st_stages_map (process_stage_update st u).1).*1
  = if decide (su_index u ∈ (st_stages_map st).*1)
    then (st_stages_map st).*1
    else (st_stages_map st).*1 ++ [su_index u].
Proof.
  destruct (stages_map_get (su_index u) (st_stages_map st)) as [h|] eqn:Hu.
  - rewrite (process_known st u h Hu). simpl.
    rewrite decide_True; [done|].
    destruct (decide (su_index u ∈ (st_stages_map st).*1)) as [|Hn]; [done|].
    apply stages_map_get_None in Hn. congruence.
  - rewrite (process_unknown st u Hu). simpl.
    rewrite decide_False by (by apply stages_map_get_None).
    by rewrite fmap_app.
Qed.

Lemma state_after_keys st us :
  (st_stages_map (state_after st us)).*1
  = foldl (λ acc x, if decide (x ∈ acc) then acc else acc ++ [x])
      (st_stages_map st).*1 (su_index <$> us).
Proof.
  revert st. induction us as [|u us IH]; intros st; [done|].
  rewrite state_after_cons, IH, process_stage_update_keys. reflexivity.
Qed.

(** X3. When the gateway returns, [stages_map] holds exactly the indices
    that the updates of the stream name, each once, in the order in which
    the indices first came, and their stages are numbered 0, 1, 2, ... in
    that order. *)
Theorem one_stage_per_index (chunks : list Chunk) :
  let m := st_stages_map (res_final (response_stream chunks)) in
  let indices := su_index <$> stage_updates chunks in
  NoDup m.*1
  ∧ m.*2 = seq 0 (length m)
  ∧ st_opened (res_final (response_stream chunks)) = length m
  ∧ (∀ idx, idx ∈ m.*1 ↔ idx ∈ indices)
  ∧ m.*1 = first_appearances indices
  ∧ m = zip (first_appearances indices) (seq 0 (length (first_appearances indices))).
Proof.
  intros m indices. subst m indices.
  destruct (response_stream_events chunks) as [_ ->].
  destruct (read_chunks_nested init_state chunks) as [_ [Hm Ho]].
  rewrite Hm, Ho.
  assert (Hw0 : well_numbered init_state).
  { repeat split. simpl. apply NoDup_nil_2. }
  destruct (state_after_numbered init_state (stage_updates chunks) Hw0)
    as [(Hnd & Hh & Hop) Hk].
  pose proof (state_after_keys init_state (stage_updates chunks)) as Hkeys.
  change (foldl _ (st_stages_map init_state).*1 (su_index <$> stage_updates chunks))
    with (first_appearances (su_index <$> stage_updates chunks)) in Hkeys.
  split; [done|]. split; [done|]. split; [done|]. split; [|split; [done|]].
  - intros idx. split.
    + intros H. apply Hk in H as [H|H]; [by apply not_elem_of_nil in H | done].
    + intros H. apply Hk. by right.
  - rewrite <- Hkeys at 2. rewrite length_fmap, <- Hh, <- Hkeys.
    by rewrite zip_fst_snd.
Qed.

(** X4. The calls of the gateway, in order: those made while the stream is
    read; then one close for every stage opened, in opening order, also
    for a stage that an update has completed already; then the attachments
    of the stream; last the exported state. *)
Theorem calls_after_the_stream (chunks : list Chunk) :
  let r := response_stream chunks in
  res_events r
  = (read_chunks init_state chunks).2
    ++ ((λ h, CloseStageSafely (Nested h)) <$> seq 0 (st_opened (res_final r)))
    ++ (ChoiceAddAttachment <$> fragment_attachments chunks)
    ++ [ChoiceSetState (exported_state (last_truthy PNone (fragment_states chunks)))].
Proof.
  intros r. subst r.
  destruct (response_stream_events chunks) as [-> ->].
  destruct (read_chunks_carried init_state chunks) as [Ha Hs]. simpl in Ha, Hs.
  destruct (read_chunks_nested init_state chunks) as [_ [Hm Ho]].
  assert (Hw0 : well_numbered init_state).
  { repeat split. simpl. apply NoDup_nil_2. }
  destruct (state_after_numbered init_state (stage_updates chunks) Hw0)
    as [(_ & Hh & Hop) _].
  unfold closing_events. rewrite Ha, Hs. f_equal. f_equal.
  rewrite Ho, Hop, <- Hh, <- Hm. by rewrite <- list_fmap_compose.
Qed.

(** *** The prepared messages of the gateway *)

Lemma py_index_before {A} (l : list A) (i : nat) :
  (i < length l)%nat →
  ∃ x, py_index l (Z.of_nat i - 1) = Ok x
       ∧ (if decide (i = 0%nat) then last l else l !! pred i) = Some x.
Proof.
  intros Hi. destruct (decide (i = 0%nat)) as [->|Hne].
  - destruct (exists_last (l := l)) as (l' & x & ->).
    + intros ->. simpl in Hi. lia.
    + exists x. change (Z.of_nat 0 - 1) with (-1).
      by rewrite py_index_last, last_snoc.
  - unfold py_index.
    destruct (Z.ltb_spec (Z.of_nat i - 1) 0) as [?|_]; [lia|].
    destruct (Z.ltb_spec (Z.of_nat i - 1) 0) as [?|_]; [lia|].
    destruct (Z.leb_spec (Z.of_nat (length l)) (Z.of_nat i - 1)) as [?|_]; [lia|].
    simpl. replace (Z.to_nat (Z.of_nat i - 1)) with (pred i) by lia.
    destruct (lookup_lt_is_Some_2 l (pred i)) as [x Hx]; [lia|].
    rewrite Hx. by exists x.
Qed.

(** One message of the history: what it adds, or why it fails. *)
Lemma restore_message_cases messages i m :
  (i < length messages)%nat →
  match restore_message messages i m with
  | Ok here =>
      readable m = true
      ∧ length here = (if gpa_marked m then 2 else 0)%nat
  | Raise e => e = AttributeError "get" ∧ readable m = false
  end.
Proof.
  intros Hi. unfold restore_message, readable, gpa_marked.
  destruct (decide (msg_role m = ASSISTANT)) as [Hr|Hr].
  - rewrite bool_decide_eq_true_2 by done.
    destruct (msg_custom_content m) as [cc|]; [|done].
    destruct (cc_state cc) as [|b|n|x|l|d] eqn:Hs; simpl; try done.
    + by destruct b.
    + by destruct (negb (n =? 0)).
    + by destruct (str_truthy x).
    + by destruct l.
    + destruct d as [|kv d]; [done|].
      destruct (truthy (default PNone (assoc_get _IS_GPA (kv :: d)))); [|done].
      destruct (py_index_before messages i Hi) as (prev & -> & _). done.
  - rewrite bool_decide_eq_false_2 by done. simpl.
    destruct (msg_custom_content m) as [cc|]; [|done].
    split; [|done]. destruct (cc_state cc); try done; simpl; by rewrite orb_true_r.
Qed.

Lemma restore_history_cases messages i rest :
  (i + length rest ≤ length messages)%nat →
  match restore_history messages i rest with
  | Ok out =>
      forallb readable rest = true
      ∧ length out = (2 * length (filter (λ m, gpa_marked m = true) rest))%nat
  | Raise e => e = AttributeError "get" ∧ forallb readable rest = false
  end.
Proof.
  revert i. induction rest as [|m rest IH]; intros i Hlen; simpl in *; [done|].
  pose proof (restore_message_cases messages i m) as Hm.
  destruct (restore_message messages i m) as [here|e]; simpl.
  - destruct Hm as [Hr Hl]; [lia|]. rewrite Hr. simpl.
    specialize (IH (S i)).
    destruct (restore_history messages (S i) rest) as [later|e]; simpl.
    + destruct IH as [Hall Hlen2]; [lia|]. split; [done|].
      rewrite length_app, Hl, Hlen2.
      destruct (gpa_marked m) eqn:Hg.
      * rewrite filter_cons_True by done. simpl. lia.
      * rewrite filter_cons_False by (by rewrite Hg). lia.
    + apply IH. lia.
  - destruct Hm as [-> Hr]; [lia|]. by rewrite Hr.
Qed.

(** X5. The preparation step returns a list exactly when the history is
    not empty and every message of it is readable.  On an empty history
    the subscript [request.messages[-1]] raises [IndexError]; an assistant
    message whose truthy state is not a dict makes [.get] raise
    [AttributeError]. *)
Theorem prepare_returns_iff (request : Request) (instructions : option string) :
  match prepare_gpa_messages request instructions with
  | Ok out =>
      req_messages request ≠ [] ∧ forallb readable (req_messages request) = true
  | Raise e =>
      (req_messages request = [] ∧ e = IndexError)
      ∨ (forallb readable (req_messages request) = false ∧ e = AttributeError "get")
  end.
Proof.
  unfold prepare_gpa_messages.
  pose proof (restore_history_cases (req_messages request) 0 (req_messages request)) as Hh.
  destruct (restore_history _ 0 _) as [res|e]; simpl.
  - destruct Hh as [Hall _]; [simpl; lia|].
    destruct (req_messages request) as [|m0 l] eqn:Hm.
    + left. done.
    + destruct (exists_last (l := m0 :: l)) as (l' & x & Hlx); [done|].
      assert (Hidx : py_index (m0 :: l) (-1) = Ok x).
      { rewrite Hlx. apply py_index_last. }
      rewrite Hidx. simpl.
      by destruct (opt_str_truthy instructions).
  - right. destruct Hh as [-> Hall]; [simpl; lia|]. done.
Qed.

(** X6. A returned list has two entries for every restored assistant
    message of the history and one last entry: a history without such a
    message gives a single entry. *)
Theorem prepared_length (request : Request) (instructions : option string)
    (out : list MessageDict) :
  prepare_gpa_messages request instructions = Ok out →
  length out
  = (2 * length (filter (λ m, gpa_marked m = true) (req_messages request)) + 1)%nat.
Proof.
  unfold prepare_gpa_messages.
  pose proof (restore_history_cases (req_messages request) 0 (req_messages request)) as Hh.
  destruct (restore_history _ 0 _) as [res|e]; simpl; [|done].
  destruct Hh as [_ Hlen]; [simpl; lia|].
  destruct (py_index (req_messages request) (-1)) as [x|]; simpl; [|done].
  destruct (opt_str_truthy instructions); intros [= <-];
    rewrite length_app, Hlen; simpl; lia.
Qed.

Lemma prepared_length_witness :
  prepare_gpa_messages
    {| req_messages := [sample_user; sample_assistant; sample_user_again] |}
    (Some "Be brief")
  = Ok [ to_dict sample_user;
         rebuilt sample_assistant sample_custom_content (PDict [("thread", PStr "t-42")]);
         {| d_role := USER;
            d_content := Some ("and then?" +:+ LF +:+ LF +:+ "Be brief");
            d_custom_content := None |} ]
  ∧ length [ to_dict sample_user;
             rebuilt sample_assistant sample_custom_content (PDict [("thread", PStr "t-42")]);
             {| d_role := USER;
                d_content := Some ("and then?" +:+ LF +:+ LF +:+ "Be brief");
                d_custom_content := None |} ]
    = (2 * length (filter (λ m, gpa_marked m = true)
                     [sample_user; sample_assistant; sample_user_again]) + 1)%nat.
Proof.
  split; [reflexivity|].
  apply (prepared_length
           {| req_messages := [sample_user; sample_assistant; sample_user_again] |}
           (Some "Be brief")).
  reflexivity.
Defined.

(** X7. The last entry of a returned list is built from the last message
    of the history: its dict when there are no instructions; otherwise a
    user entry whose text is the message's text, a blank line and the
    instructions, with the custom content of the message kept. *)
Theorem prepared_last_entry (request : Request) (instructions : option string)
    (out : list MessageDict) :
  prepare_gpa_messages request instructions = Ok out →
  ∃ last_user_msg,
    last (req_messages request) = Some last_user_msg
    ∧ last out
      = Some (match instructions with
              | Some (String a i) =>
                  {| d_role := USER;
                     d_content := Some (py_str (msg_content last_user_msg)
                                        +:+ LF +:+ LF +:+ String a i);
                     d_custom_content := msg_custom_content last_user_msg |}
              | _ => to_dict last_user_msg
              end).
Proof.
  unfold prepare_gpa_messages.
  destruct (restore_history _ 0 _) as [res|e]; simpl; [|done].
  destruct (req_messages request) as [|m0 l] eqn:Hm; [done|].
  destruct (exists_last (l := m0 :: l)) as (l' & x & Hlx); [done|].
  assert (Hidx : py_index (m0 :: l) (-1) = Ok x).
  { rewrite Hlx. apply py_index_last. }
  rewrite Hidx, Hlx, last_snoc. simpl.
  intros Hout. exists x. split; [done|].
  destruct instructions as [[|a i]|]; simpl in Hout; injection Hout as <-;
    by rewrite last_snoc.
Qed.

Lemma prepared_last_entry_witness :
  ∃ last_user_msg,
    last [sample_user; sample_assistant; sample_user_again] = Some last_user_msg
    ∧ last [ to_dict sample_user;
             rebuilt sample_assistant sample_custom_content
               (PDict [("thread", PStr "t-42")]);
             {| d_role := USER;
                d_content := Some ("and then?" +:+ LF +:+ LF +:+ "Be brief");
                d_custom_content := None |} ]
      = Some {| d_role := USER;
                d_content := Some (py_str (msg_content last_user_msg)
                                   +:+ LF +:+ LF +:+ "Be brief");
                d_custom_content := msg_custom_content last_user_msg |}.
Proof.
  apply (prepared_last_entry
           {| req_messages := [sample_user; sample_assistant; sample_user_again] |}
           (Some "Be brief")).
  reflexivity.
Defined.

(** X8. A restored assistant message is paired with the message that
    stands just before it in the history, whatever its role; for the first
    message of the history the subscript [i - 1] is [-1] and the pair
    starts with the last message of the history.  The state of the rebuilt
    message is the [gpa_messages] entry of the stored state. *)
Theorem restored_pair (messages : list Message) (i : nat) (m : Message) :
  messages !! i = Some m →
  gpa_marked m = true →
  ∃ prev cc d,
    msg_custom_content m = Some cc
    ∧ cc_state cc = PDict d
    ∧ (if decide (i = 0%nat) then last messages else messages !! pred i) = Some prev
    ∧ restore_message messages i m
      = Ok [to_dict prev; rebuilt m cc (default PNone (assoc_get _GPA_MESSAGES d))].
Proof.
  intros Hi Hg. apply lookup_lt_Some in Hi.
  unfold gpa_marked in Hg. apply andb_true_iff in Hg as [Hr Hg].
  apply bool_decide_eq_true in Hr.
  destruct (msg_custom_content m) as [cc|] eqn:Hcc; [|done].
  destruct (cc_state cc) as [| | | | |d] eqn:Hs; try done.
  apply andb_true_iff in Hg as [Ht Hg].
  destruct (py_index_before messages i Hi) as (prev & Hidx & Hprev).
  exists prev, cc, d. repeat split; try done.
  unfold restore_message. rewrite decide_True by done. rewrite Hcc, Hs, Ht. simpl.
  rewrite Hg, Hidx. simpl. unfold rebuilt, to_dict. simpl. by rewrite Hr.
Qed.

Lemma restored_pair_witness :
  restore_message [sample_assistant; sample_user; sample_user_again] 0 sample_assistant
  = Ok [to_dict sample_user_again;
        rebuilt sample_assistant sample_custom_content (PDict [("thread", PStr "t-42")])].
Proof.
  destruct (restored_pair [sample_assistant; sample_user; sample_user_again] 0
              sample_assistant eq_refl eq_refl)
    as (prev & cc & d & Hcc & Hs & Hprev & ->).
  injection Hcc as <-. injection Hs as <-. injection Hprev as <-.
  reflexivity.
Defined.

End GPAFacts.

(** ** The coordinator *)

Section CoordinatorFacts.
Import MASCoordinator.

(** C9. The prepared list starts with the system prompt; after it comes
    one entry per message of the history, in order: the plain-text copy
    for a user message that carries structured custom content (only its
    text is kept, the payload is dropped), the message as it is for every
    other message. *)
Theorem history_transcription (request : Request) (system_prompt : string) :
  let prepared := prepare_messages request system_prompt in
  length prepared = S (length (req_messages request))
  ∧ prepared !! 0%nat
    = Some {| d_role := SYSTEM; d_content := Some system_prompt; d_custom_content := None |}
  ∧ (∀ i : nat,
       prepared !! S i
       = (λ m, if carries_structured_content m then plain_text_copy m else to_dict m)
         <$> req_messages request !! i)
  ∧ (∀ m t, msg_content m = Some t →
            d_content (plain_text_copy m) = Some t
            ∧ d_custom_content (plain_text_copy m) = None).
Proof.
  intros prepared. subst prepared. unfold prepare_messages.
  split; [|split; [|split]].
  - simpl. by rewrite length_fmap.
  - reflexivity.
  - intros i. simpl. rewrite list_lookup_fmap.
    destruct (req_messages request !! i) as [m|]; simpl; [|done].
    f_equal. unfold transcribe, carries_structured_content, plain_text_copy.
    destruct (decide (msg_role m = USER)) as [Hr|Hr].
    + rewrite bool_decide_eq_true_2 by done. simpl.
      by destruct (msg_custom_content m).
    + by rewrite bool_decide_eq_false_2.
  - intros m t Ht. simpl. by rewrite Ht.
Qed.

Lemma history_transcription_witness :
  let m := {| msg_role := USER; msg_content := Some "see the file";
              msg_custom_content :=
                Some {| cc_stages := None;
                        cc_attachments := Some [attachment_of "a.txt"];
                        cc_state := PNone |} |} in
  prepare_messages {| req_messages := [m] |} "SYSTEM PROMPT"
  = [ {| d_role := SYSTEM; d_content := Some "SYSTEM PROMPT"; d_custom_content := None |};
      {| d_role := USER; d_content := Some "see the file"; d_custom_content := None |} ].
Proof.
  intros m.
  destruct (history_transcription {| req_messages := [m] |} "SYSTEM PROMPT")
    as (Hlen & H0 & Hi & _).
  apply list_eq. intros [|[|i]].
  - exact H0.
  - exact (Hi 0%nat).
  - rewrite (Hi (S i)). reflexivity.
Defined.

(** *** The context block *)

Lemma numbered_context_blocks (agent_messages : list Message) :
  imap numbered_context agent_messages = numbered_blocks agent_messages.
Proof.
  apply list_eq. intros i. unfold numbered_blocks.
  rewrite list_lookup_imap, list_lookup_fmap.
  destruct (agent_messages !! i) as [m|] eqn:Hm; simpl.
  - rewrite lookup_seq_lt by (by eapply lookup_lt_Some). simpl.
    unfold numbered_context, context_block. simpl. rewrite Hm. simpl.
    by replace (i + 1)%nat with (S i) by lia.
  - by rewrite lookup_seq_ge by (by apply lookup_ge_None).
Qed.

(** C5. No agent message: the marker text.  One agent message: a single
    block without a number, holding its content.  Two or more: as many
    blocks as agent messages, joined by line feeds, the [k]-th block
    headed [CONTEXT k] and holding the content of the [k]-th agent message
    of the plan. *)
Theorem synthesis_context :
  final_context [] = "No agent calls"
  ∧ (∀ m, final_context [m] = "## CONTEXT:" +:+ LF +:+ " " +:+ py_str (msg_content m))
  ∧ (∀ m1 m2 rest,
       final_context (m1 :: m2 :: rest)
       = String.concat LF (numbered_blocks (m1 :: m2 :: rest))
       ∧ length (numbered_blocks (m1 :: m2 :: rest)) = length (m1 :: m2 :: rest))
  ∧ (∀ agent_messages k m, agent_messages !! k = Some m →
       numbered_blocks agent_messages !! k
       = Some ("## CONTEXT " +:+ pretty (S k) +:+ ":" +:+ LF +:+ " "
               +:+ py_str (msg_content m))).
Proof.
  split; [reflexivity|]. split; [intros m; reflexivity|]. split.
  - intros m1 m2 rest. split.
    + unfold final_context. rewrite decide_True by (simpl; lia).
      by rewrite numbered_context_blocks.
    + unfold numbered_blocks. by rewrite length_fmap, length_seq.
  - intros agent_messages k m Hm. unfold numbered_blocks.
    rewrite list_lookup_fmap, lookup_seq_lt by (by eapply lookup_lt_Some).
    simpl. unfold context_block. simpl. by rewrite Hm.
Qed.

Example synthesis_context_two :
  final_context sample_agent_messages
  = "## CONTEXT 1:" +:+ LF +:+ " A" +:+ LF +:+ "## CONTEXT 2:" +:+ LF +:+ " B".
Proof. reflexivity. Qed.

(** *** The messages sent to the synthesis model *)

(** C8. When the last message of the request has text [t], the list sent
    to the synthesis model is the prepared list with its last entry
    changed in one place: its content is the context block, the separator
    and then [t].  The role and the other keys of that entry and every
    earlier entry are as prepared. *)
Theorem synthesis_frame (system_prompt : string) (history : list Message)
    (u : Message) (t : string) (agent_messages : list Message) :
  msg_content u = Some t →
  let earlier := prepare_messages {| req_messages := history |} system_prompt in
  prepare_messages {| req_messages := history ++ [u] |} system_prompt
  = earlier ++ [transcribe u]
  ∧ d_content (transcribe u) = Some t
  ∧ synthesis_messages system_prompt {| req_messages := history ++ [u] |} agent_messages
    = Ok (earlier
          ++ [ {| d_role := d_role (transcribe u);
                  d_content :=
                    Some (final_context agent_messages
                          +:+ LF +:+ " ---" +:+ LF +:+ " ## USER_REQUEST: " +:+ LF +:+ " "
                          +:+ t);
                  d_custom_content := d_custom_content (transcribe u) |} ]).
Proof.
  intros Ht earlier.
  assert (Hprep : prepare_messages {| req_messages := history ++ [u] |} system_prompt
                  = earlier ++ [transcribe u]).
  { subst earlier. unfold prepare_messages. simpl. by rewrite fmap_app. }
  assert (Hc : d_content (transcribe u) = Some t).
  { unfold transcribe. destruct (decide (msg_role u = USER)); [|exact Ht].
    destruct (msg_custom_content u); simpl; [by rewrite Ht | exact Ht]. }
  repeat split; [exact Hprep | exact Hc |].
  unfold synthesis_messages. rewrite Hprep, py_index_last. cbn [rbind].
  unfold get_content. rewrite Hc. cbn [rbind].
  by rewrite insert_last.
Qed.

Lemma synthesis_frame_witness :
  msg_content {| msg_role := USER; msg_content := Some "What is new?";
                 msg_custom_content := None |} = Some "What is new?"
  ∧ synthesis_messages "SYSTEM PROMPT"
      {| req_messages :=
           [agent_message_with "Earlier answer" "old.txt"]
           ++ [ {| msg_role := USER; msg_content := Some "What is new?";
                   msg_custom_content := None |} ] |}
      sample_agent_messages
    = Ok [ {| d_role := SYSTEM; d_content := Some "SYSTEM PROMPT";
              d_custom_content := None |};
           to_dict (agent_message_with "Earlier answer" "old.txt");
           {| d_role := USER;
              d_content :=
                Some ("## CONTEXT 1:" +:+ LF +:+ " A" +:+ LF
                      +:+ "## CONTEXT 2:" +:+ LF +:+ " B"
                      +:+ LF +:+ " ---" +:+ LF +:+ " ## USER_REQUEST: " +:+ LF
                      +:+ " What is new?");
              d_custom_content := None |} ].
Proof.
  split; [reflexivity|].
  destruct (synthesis_frame "SYSTEM PROMPT"
              [agent_message_with "Earlier answer" "old.txt"]
              {| msg_role := USER; msg_content := Some "What is new?";
                 msg_custom_content := None |}
              "What is new?" sample_agent_messages eq_refl) as (_ & _ & ->).
  reflexivity.
Defined.

(** When the last prepared entry has no content key, the subscript
    [messages[-1]["content"]] raises. *)
Example synthesis_messages_without_text :
  synthesis_messages "SYSTEM PROMPT"
    {| req_messages :=
         [ {| msg_role := ASSISTANT; msg_content := None;
              msg_custom_content := None |} ] |} []
  = Raise (KeyError "content").
Proof. reflexivity. Qed.

(** *** Merging the custom content of the agent messages *)

Lemma merge_from (acc : CustomContent) (agent_messages : list Message) :
  has_lists acc = true →
  forallb has_lists (side_channels agent_messages) = true →
  merge_custom_content (Some acc) agent_messages
  = Ok (Some {| cc_stages :=
                  Some (default [] (cc_stages acc)
                        ++ (side_channels agent_messages ≫= λ c, default [] (cc_stages c)));
                cc_attachments :=
                  Some (default [] (cc_attachments acc)
                        ++ (side_channels agent_messages ≫= λ c, default [] (cc_attachments c)));
                cc_state := cc_state acc |}).
Proof.
  revert acc. induction agent_messages as [|m ms IH]; intros acc Hacc Hall.
  - simpl. rewrite !app_nil_r. unfold has_lists in Hacc.
    destruct acc as [[st|] [at_|] state]; simpl in *; done.
  - unfold side_channels in *. cbn [merge_custom_content omap list_omap] in *.
    unfold merge_step.
    destruct (msg_custom_content m) as [mcc|]; cbn [rbind].
    + simpl in Hall. apply andb_true_iff in Hall as [Hm Hall].
      unfold has_lists in Hacc, Hm.
      destruct acc as [[st|] [at_|] state]; simpl in Hacc; try done.
      destruct mcc as [[st'|] [at'|] state']; simpl in Hm; try done.
      simpl. rewrite IH by done. simpl. by rewrite <- !app_assoc.
    + by apply IH.
Qed.

(** X16. When every custom content has both lists, the merge is the
    concatenation in plan order of the stages and of the attachments, with
    the state of the first custom content; without any custom content
    there is none. *)
Lemma merge_concatenates (agent_messages : list Message) :
  forallb has_lists (side_channels agent_messages) = true →
  merge_custom_content None agent_messages = Ok (concatenated (side_channels agent_messages)).
Proof.
  induction agent_messages as [|m ms IH]; intros Hall; [reflexivity|].
  unfold side_channels in *. cbn [merge_custom_content omap list_omap] in *.
  unfold merge_step.
  destruct (msg_custom_content m) as [mcc|]; cbn [rbind].
  - simpl in Hall. apply andb_true_iff in Hall as [Hm Hall].
    rewrite merge_from by done. unfold concatenated. simpl.
    unfold has_lists in Hm.
    destruct mcc as [[st'|] [at'|] state']; simpl in *; done.
  - by apply IH.
Qed.

(** Two agent messages that carry attachments and no stage list: the
    merge looks up [extend] on the missing list and raises, after the
    synthesis stream has been forwarded; no message is returned. *)
Theorem merge_raises_without_stages (system_prompt : string)
    (synthesis_model : list MessageDict → list Chunk) :
  side_channels sample_agent_messages
  = [ {| cc_stages := None; cc_attachments := Some [attachment_of "a.txt"];
         cc_state := PNone |};
      {| cc_stages := None; cc_attachments := Some [attachment_of "b.txt"];
         cc_state := PNone |} ]
  ∧ merge_custom_content None sample_agent_messages = Raise (AttributeError "extend")
  ∧ (final_response system_prompt synthesis_model sample_request sample_agent_messages).1
    = Raise (AttributeError "extend").
Proof.
  split; [reflexivity|]. split; [reflexivity|].
  unfold final_response. simpl.
  by destruct (read_synthesis _ _).
Qed.

(** *** The side channel of the returned message *)




(** *** The synthesis stream *)

Lemma read_synthesis_spec (content : string) (chunks : list Chunk) :
  read_synthesis content chunks
  = (content +:+ String.concat "" (GPAGateway.fragment_contents chunks),
     ChoiceAppendContent <$> filter (λ s, s ≠ "") (GPAGateway.fragment_contents chunks)).
Proof.
  revert content. induction chunks as [|chunk chunks IH]; intros content.
  - simpl. by rewrite append_empty_r.
  - rewrite fragment_contents_cons. cbn [read_synthesis].
    destruct (chunk_choices chunk) as [|c cs]; [apply IH|].
    destruct (delta_content (choice_delta c)) as [x|]; [|apply IH].
    cbn [opt_str_truthy default]. rewrite concat_empty_app, filter_app.
    change (option_list (Some x)) with [x].
    destruct x as [|a x]; cbn [str_truthy]; rewrite IH.
    + by rewrite filter_cons_False by (intros H; by apply H).
    + rewrite filter_cons_True by done. by rewrite append_assoc.
Qed.

(** X9. Once the messages for the synthesis model are built, every
    non-empty content of its stream is appended to the choice as it
    comes, in order, also when the merge that follows raises.  A returned
    message is an assistant message whose content is the concatenation of
    the contents of the stream; a failure at this point is the failure of
    the merge. *)
Theorem synthesis_streaming (system_prompt : string)
    (synthesis_model : list MessageDict → list Chunk)
    (request : Request) (agent_messages : list Message) (messages : list MessageDict) :
  synthesis_messages system_prompt request agent_messages = Ok messages →
  let contents := GPAGateway.fragment_contents (synthesis_model messages) in
  let r := final_response system_prompt synthesis_model request agent_messages in
  r.2 = ChoiceAppendContent <$> filter (λ s, s ≠ "") contents
  ∧ match r.1 with
    | Ok fr =>
        fr_sent fr = messages
        ∧ fr_events fr = r.2
        ∧ msg_role (fr_message fr) = ASSISTANT
        ∧ msg_content (fr_message fr) = Some (String.concat "" contents)
        ∧ merge_custom_content None agent_messages = Ok (msg_custom_content (fr_message fr))
    | Raise e => merge_custom_content None agent_messages = Raise e
    end.
Proof.
  intros Hm contents r. subst r contents. unfold final_response.
  rewrite Hm, read_synthesis_spec.
  by destruct (merge_custom_content None agent_messages).
Qed.

Lemma synthesis_streaming_witness :
  let model := λ _ : list MessageDict, GPAGateway.sample_reply in
  (final_response "SYSTEM PROMPT" model sample_request sample_agent_messages).2
  = [ChoiceAppendContent "Hel"; ChoiceAppendContent "lo"]
  ∧ (final_response "SYSTEM PROMPT" model sample_request sample_agent_messages).1
    = Raise (AttributeError "extend").
Proof.
  intros model.
  destruct (synthesis_streaming "SYSTEM PROMPT" model sample_request
              sample_agent_messages _ eq_refl) as [-> _].
  split; reflexivity.
Defined.

(** *** The merge, when it returns *)

Lemma merge_without_custom_content acc (agent_messages : list Message) :
  side_channels agent_messages = [] →
  merge_custom_content acc agent_messages = Ok acc.
Proof.
  unfold side_channels. induction agent_messages as [|m ms IH]; intros H; [done|].
  cbn [merge_custom_content omap list_omap] in *. unfold merge_step.
  destruct (msg_custom_content m); [done|]. by apply IH.
Qed.

Lemma merge_from_returns (acc : CustomContent) (agent_messages : list Message) r :
  merge_custom_content (Some acc) agent_messages = Ok r →
  side_channels agent_messages = []
  ∨ (has_lists acc = true ∧ forallb has_lists (side_channels agent_messages) = true).
Proof.
  revert acc r. unfold side_channels.
  induction agent_messages as [|m ms IH]; intros acc r H; [by left|].
  cbn [merge_custom_content omap list_omap] in *. unfold merge_step in H.
  destruct (msg_custom_content m) as [mcc|]; cbn [rbind] in H.
  - right. unfold has_lists at 1.
    destruct acc as [[st|] [at_|] state]; simpl in *; try done;
      destruct mcc as [[st'|] [at'|] state']; simpl in *; try done.
    split; [done|].
    destruct (IH _ _ H) as [->|[_ Hall]]; [done|]. exact Hall.
  - by apply (IH acc r).
Qed.

Lemma merge_returns_with_lists (agent_messages : list Message) :
  forallb has_lists (side_channels agent_messages) = true →
  ∃ r, merge_custom_content None agent_messages = Ok r.
Proof.
  unfold side_channels. induction agent_messages as [|m ms IH]; intros Hall.
  - by exists None.
  - cbn [merge_custom_content omap list_omap] in *. unfold merge_step.
    destruct (msg_custom_content m) as [mcc|]; cbn [rbind]; [|by apply IH].
    simpl in Hall. apply andb_true_iff in Hall as [Hm Hall].
    eexists. by apply merge_from.
Qed.

(** X10. The merge of the agent messages returns exactly when at most one
    of them has custom content, or every custom content has both a stage
    list and an attachment list; a single custom content is returned as
    it is. *)
Theorem merge_returns_iff (agent_messages : list Message) :
  ((∃ r, merge_custom_content None agent_messages = Ok r)
   ↔ (length (side_channels agent_messages) ≤ 1)%nat
     ∨ forallb has_lists (side_channels agent_messages) = true)
  ∧ (∀ cc, side_channels agent_messages = [cc] →
           merge_custom_content None agent_messages = Ok (Some cc)).
Proof.
  assert (Hone : ∀ ms cc, side_channels ms = [cc] →
                          merge_custom_content None ms = Ok (Some cc)).
  { unfold side_channels. induction ms as [|m ms IH]; intros cc H; [done|].
    cbn [merge_custom_content omap list_omap] in *. unfold merge_step.
    destruct (msg_custom_content m) as [mcc|]; cbn [rbind].
    - injection H as -> H. by apply merge_without_custom_content.
    - by apply IH. }
  split; [|apply Hone]. split.
  - intros [r Hr]. unfold side_channels in *.
    induction agent_messages as [|m ms IH]; [left; simpl; lia|].
    cbn [merge_custom_content omap list_omap] in *. unfold merge_step in Hr.
    destruct (msg_custom_content m) as [mcc|]; cbn [rbind] in Hr; [|by apply IH].
    destruct (merge_from_returns mcc ms r Hr) as [Hnil|[Hc Hall]].
    + left. unfold side_channels in Hnil. rewrite Hnil. simpl. lia.
    + right. simpl. by rewrite Hc.
  - intros [Hlen|Hall].
    + destruct (side_channels agent_messages) as [|cc [|cc' l]] eqn:Hs.
      * exists None. by apply merge_without_custom_content.
      * exists (Some cc). by apply Hone.
      * simpl in Hlen. lia.
    + by apply merge_returns_with_lists.
Qed.

Lemma merge_concatenates_witness :
  forallb has_lists (side_channels sample_full_messages) = true
  ∧ merge_custom_content None sample_full_messages
    = Ok (Some {| cc_stages :=
                    Some [PDict [("name", PStr "Searching")];
                          PDict [("name", PStr "Reading")]];
                  cc_attachments := Some [attachment_of "a.txt"; attachment_of "c.txt"];
                  cc_state := PStr "A" |}).
Proof.
  split; [reflexivity|].
  rewrite (merge_concatenates sample_full_messages eq_refl). reflexivity.
Defined.

(** *** The prepared list *)

(** X11. The prepared list keeps the order and the roles of the history
    behind the system entry.  No user entry has custom content, while an
    entry of any other role keeps the content and the custom content of
    its message, the state included. *)
Theorem prepared_roles (request : Request) (system_prompt : string) :
  d_role <$> prepare_messages request system_prompt
  = SYSTEM :: (msg_role <$> req_messages request)
  ∧ Forall (λ d, d_role d = USER → d_custom_content d = None)
      (prepare_messages request system_prompt)
  ∧ Forall (λ m, msg_role m ≠ USER → transcribe m = to_dict m) (req_messages request).
Proof.
  unfold prepare_messages. split; [|split].
  - simpl. f_equal. rewrite <- list_fmap_compose. apply list_fmap_ext.
    intros i m _. simpl. unfold transcribe.
    destruct (decide (msg_role m = USER)) as [Hr|]; [|done].
    by destruct (msg_custom_content m).
  - constructor; [done|]. apply Forall_fmap, Forall_forall. intros m _. simpl.
    unfold transcribe. destruct (decide (msg_role m = USER)) as [Hr|Hr].
    + by destruct (msg_custom_content m) eqn:Hc.
    + done.
  - apply Forall_forall. intros m _ Hr. unfold transcribe.
    by rewrite decide_False.
Qed.

(** X12. Building the messages for the synthesis model fails exactly in
    one case: the history is not empty and its last message has no content
    and is not a user message with custom content; the subscript
    [["content"]] then raises [KeyError].  In every other case a list is
    returned, with one entry for the system prompt and one per message;
    on an empty history it is the system entry that receives the context
    block. *)
Theorem synthesis_messages_cases (system_prompt : string) (request : Request)
    (agent_messages : list Message) :
  match synthesis_messages system_prompt request agent_messages with
  | Ok sent =>
      length sent = S (length (req_messages request))
      ∧ (req_messages request = []
         ∨ ∃ m, last (req_messages request) = Some m
                ∧ (is_Some (msg_content m) ∨ carries_structured_content m = true))
  | Raise e =>
      e = KeyError "content"
      ∧ ∃ m, last (req_messages request) = Some m
             ∧ msg_content m = None
             ∧ carries_structured_content m = false
  end
  ∧ synthesis_messages system_prompt {| req_messages := [] |} agent_messages
    = Ok [ {| d_role := SYSTEM;
              d_content :=
                Some (final_context agent_messages
                      +:+ LF +:+ " ---" +:+ LF +:+ " ## USER_REQUEST: " +:+ LF +:+ " "
                      +:+ system_prompt);
              d_custom_content := None |} ].
Proof.
  split; [|reflexivity].
  unfold synthesis_messages.
  destruct (exists_last (l := prepare_messages request system_prompt))
    as (l & x & Hlx); [done|].
  assert (Hlen : length (prepare_messages request system_prompt)
                 = S (length (req_messages request))).
  { unfold prepare_messages. simpl. by rewrite length_fmap. }
  assert (Hidx : py_index (prepare_messages request system_prompt) (-1) = Ok x).
  { rewrite Hlx. apply py_index_last. }
  assert (Hlast : req_messages request = []
                  ∨ ∃ m, last (req_messages request) = Some m ∧ x = transcribe m).
  { destruct (req_messages request) as [|m0 ms] eqn:Hm; [by left|]. right.
    destruct (exists_last (l := m0 :: ms)) as (ms' & m & Hms); [done|].
    unfold prepare_messages in Hlx. rewrite Hm, Hms, fmap_app in Hlx. simpl in Hlx.
    rewrite app_comm_cons in Hlx. apply app_inj_tail in Hlx as [_ <-].
    exists m. by rewrite Hms, last_snoc. }
  assert (Hsys : req_messages request = [] → d_content x = Some system_prompt).
  { intros Hm. unfold prepare_messages in Hlx. rewrite Hm in Hlx. simpl in Hlx.
    destruct l as [|? [|? ?]]; simplify_eq/=. done. }
  rewrite Hidx. cbn [rbind]. unfold get_content.
  destruct (d_content x) as [t|] eqn:Hc; cbn [rbind].
  - split; [by rewrite length_insert|].
    destruct Hlast as [Hm|(m & Hm & ->)]; [by left|]. right.
    exists m. split; [done|].
    unfold transcribe, carries_structured_content in *.
    destruct (decide (msg_role m = USER)) as [Hr|Hr].
    + rewrite bool_decide_eq_true_2 by done.
      destruct (msg_custom_content m); [by right|]. left. simpl in Hc. by rewrite Hc.
    + left. simpl in Hc. by rewrite Hc.
  - split; [done|].
    destruct Hlast as [Hm|(m & Hm & ->)]; [by apply Hsys in Hm|].
    exists m. split; [done|].
    unfold transcribe, carries_structured_content in *.
    destruct (decide (msg_role m = USER)) as [Hr|Hr].
    + rewrite bool_decide_eq_true_2 by done.
      by destruct (msg_custom_content m).
    + by rewrite bool_decide_eq_false_2.
Qed.

(** *** The dispatch *)

Section Dispatch.

Variable COORDINATION_REQUEST_SYSTEM_PROMPT : string.
Variable FINAL_RESPONSE_SYSTEM_PROMPT : string.
Variable gpa_agent : list MessageDict → list Chunk.
Variable synthesis_model : list MessageDict → list Chunk.
Variable planning_model : list MessageDict → result (list CoordinationRequest).
Variable ums_gateway_response : Request → option string → result Message * list event.
Variable model_dump_json : list CoordinationRequest → string.
Variable agent_name_str : AgentName → string.

Let dispatch := handle_coordination_request gpa_agent ums_gateway_response agent_name_str.
Let agents := call_agents gpa_agent ums_gateway_response agent_name_str.
Let turn :=
  handle_request COORDINATION_REQUEST_SYSTEM_PROMPT FINAL_RESPONSE_SYSTEM_PROMPT
    gpa_agent synthesis_model planning_model ums_gateway_response
    model_dump_json agent_name_str.

Lemma call_agents_unknown request k pre cr post name msgs ev :
  agent_name cr = OtherAgent name →
  agents request k pre = (Ok msgs, ev) →
  agents request k (pre ++ cr :: post)
  = (Raise (ValueError ("Agent Name " +:+ agent_name_str (OtherAgent name) +:+ " is unknown")),
     ev ++ [TurnOpenStage (k + length pre)
              ("Call " +:+ agent_name_str (OtherAgent name) +:+ " Agent")]).
Proof.
  subst agents. intros Hname. revert k msgs ev.
  induction pre as [|c pre IH]; intros k msgs ev Hpre; simpl in *.
  - injection Hpre as <- <-. unfold handle_coordination_request. rewrite Hname.
    by rewrite Nat.add_0_r.
  - destruct (handle_coordination_request _ _ _ c request) as [[m|e] ev1].
    + destruct (call_agents _ _ _ request (S k) pre) as [[ms|e'] ev2] eqn:Hrest;
        [|discriminate Hpre].
      injection Hpre as <- <-.
      rewrite (IH (S k) ms ev2 Hrest).
      replace (S k + length pre)%nat with (k + S (length pre))%nat by lia.
      f_equal. simpl. f_equal. by rewrite <- app_assoc.
    + discriminate Hpre.
Qed.

(** C6. A request whose agent name is neither of the two known names
    raises the unknown-agent [ValueError] without entering a gateway.
    When the plan holds such a request and the calls before it have
    returned, the turn fails with that error: after the calls of the
    earlier requests, only the stage of the failing request is opened.
    The two known names enter their own gateway with the instructions of
    the request and return what it returns. *)
Theorem unknown_agent_fails_turn (request : Request)
    (pre post : list CoordinationRequest) (cr : CoordinationRequest)
    (name : string) (msgs : list Message) (ev : list turn_event) :
  agent_name cr = OtherAgent name →
  planning_model (prepare_messages request COORDINATION_REQUEST_SYSTEM_PROMPT)
  = Ok (pre ++ cr :: post) →
  agents request 1 pre = (Ok msgs, ev) →
  let error := ValueError ("Agent Name " +:+ agent_name_str (OtherAgent name) +:+ " is unknown") in
  dispatch cr request = (Raise error, [])
  ∧ (turn request).1 = Raise error
  ∧ (∃ plan_events,
       (turn request).2
       = plan_events ++ ev
         ++ [TurnOpenStage (1 + length pre)
               ("Call " +:+ agent_name_str (OtherAgent name) +:+ " Agent")]
       ∧ ∀ g i, Invoke g i ∉ plan_events)
  ∧ (∀ instructions,
       dispatch {| agent_name := UMS; additional_instructions := instructions |} request
       = ((ums_gateway_response request instructions).1,
          Invoke TheUMSAgentGateway instructions
          :: (Within <$> (ums_gateway_response request instructions).2)))
  ∧ (∀ instructions,
       dispatch {| agent_name := GPA; additional_instructions := instructions |} request
       = match GPAGateway.response gpa_agent request instructions with
         | Ok r =>
             (Ok (GPAGateway.res_message r),
              Invoke TheGPAGateway instructions :: (Within <$> GPAGateway.res_events r))
         | Raise e => (Raise e, [Invoke TheGPAGateway instructions])
         end).
Proof.
  intros Hname Hplan Hpre error.
  split; [|split; [|split; [|split]]].
  - subst dispatch. unfold handle_coordination_request. by rewrite Hname.
  - subst turn. unfold handle_request. rewrite Hplan.
    fold agents. by rewrite (call_agents_unknown request 1 pre cr post name msgs ev).
  - subst turn. unfold handle_request. rewrite Hplan.
    fold agents. rewrite (call_agents_unknown request 1 pre cr post name msgs ev) by done.
    eexists. split; [reflexivity|].
    intros g i Hin. repeat (apply elem_of_cons in Hin as [Hin|Hin]; [discriminate Hin|]).
    by apply not_elem_of_nil in Hin.
  - intros instructions. subst dispatch. unfold handle_coordination_request. simpl.
    by destruct (ums_gateway_response request instructions).
  - intros instructions. reflexivity.
Qed.

End Dispatch.

Lemma unknown_agent_fails_turn_witness :
  let ums := λ (_ : Request) (_ : option string),
               (Raise IndexError : result Message, [] : list event) in
  let turn :=
    handle_request "PLAN" "ANSWER" (λ _, []) (λ _, []) (λ _, Ok sample_plan) ums
      (λ _, "{}") sample_agent_name_str in
  turn sample_request
  = (Raise (ValueError "Agent Name Weather is unknown"),
     [ TurnOpenStage 0 "Coordination Request";
       TurnStageAppend 0 ("```json" +:+ LF +:+ CR +:+ "{}" +:+ LF +:+ CR +:+ "```"
                          +:+ LF +:+ CR);
       TurnCloseStage 0;
       TurnOpenStage 1 "Call Weather Agent" ]).
Proof.
  intros ums turn.
  destruct (unknown_agent_fails_turn "PLAN" "ANSWER" (λ _, []) (λ _, [])
              (λ _, Ok sample_plan) ums (λ _, "{}") sample_agent_name_str
              sample_request [] []
              {| agent_name := OtherAgent "Weather"; additional_instructions := None |}
              "Weather" [] [] eq_refl eq_refl eq_refl)
    as (_ & Hres & _).
  subst turn. rewrite surjective_pairing at 1. rewrite Hres. reflexivity.
Defined.

(** *** The calls of a plan *)

Section Plan.

Variable gpa_agent : list MessageDict → list Chunk.
Variable ums_gateway_response : Request → option string → result Message * list event.
Variable agent_name_str : AgentName → string.

Let dispatch := handle_coordination_request gpa_agent ums_gateway_response agent_name_str.
Let agents := call_agents gpa_agent ums_gateway_response agent_name_str.

Lemma invoked_within (ev : list event) : invoked (Within <$> ev) = [].
Proof. unfold invoked. induction ev as [|e ev IH]; [done | exact IH]. Qed.

Lemma turn_stage_events_within (ev : list event) : turn_stage_events (Within <$> ev) = [].
Proof.
  unfold turn_stage_events. induction ev as [|e ev IH]; [done|].
  rewrite fmap_cons, filter_cons_False by done. exact IH.
Qed.

(** A call that returns has entered the gateway of its agent name, once,
    and has touched no stage of the turn. *)
Lemma dispatch_returns cr request m ev :
  dispatch cr request = (Ok m, ev) →
  ∃ g, gateway_of (agent_name cr) = Some g
       ∧ invoked ev = [g]
       ∧ turn_stage_events ev = []
       ∧ (g = TheGPAGateway → msg_custom_content m = None).
Proof.
  subst dispatch. unfold handle_coordination_request.
  destruct (agent_name cr) as [| |name]; [| |done].
  - destruct (GPAGateway.response gpa_agent request (additional_instructions cr))
      as [r|e] eqn:Hr; [|done].
    intros [= <- <-]. exists TheGPAGateway. repeat split.
    + unfold invoked. simpl. fold (invoked (Within <$> GPAGateway.res_events r)).
      by rewrite invoked_within.
    + unfold turn_stage_events. rewrite filter_cons_False by done.
      apply turn_stage_events_within.
    + intros _. unfold GPAGateway.response in Hr.
      destruct (GPAGateway.prepare_gpa_messages _ _); simpl in Hr; [|done].
      injection Hr as <-. unfold GPAGateway.response_stream.
      by destruct (GPAGateway.read_chunks _ _).
  - destruct (ums_gateway_response request (additional_instructions cr)) as [r evu].
    intros [= -> <-]. exists TheUMSAgentGateway. repeat split; [| |done].
    + unfold invoked. simpl. fold (invoked (Within <$> evu)).
      by rewrite invoked_within.
    + unfold turn_stage_events. rewrite filter_cons_False by done.
      apply turn_stage_events_within.
Qed.

(** X13. When every call of the plan returns, the agent messages are as
    many as the calls; the gateways were entered one per call, in plan
    order, each the gateway of the agent name; and the stages of the turn
    were opened and closed one call after the other, the stage of a call
    being closed before the next one is opened. *)
Theorem calls_in_plan_order (request : Request) (k : nat)
    (agent_calls : list CoordinationRequest) (msgs : list Message)
    (ev : list turn_event) :
  agents request k agent_calls = (Ok msgs, ev) →
  length msgs = length agent_calls
  ∧ Some <$> invoked ev = (λ c, gateway_of (agent_name c)) <$> agent_calls
  ∧ turn_stage_events ev
    = mjoin (imap (λ i c, [ TurnOpenStage (k + i)
                              ("Call " +:+ agent_name_str (agent_name c) +:+ " Agent");
                            TurnCloseStage (k + i) ]) agent_calls).
Proof.
  subst agents. revert k msgs ev.
  induction agent_calls as [|c cs IH]; intros k msgs ev H; simpl in H.
  - by injection H as <- <-.
  - destruct (handle_coordination_request _ _ _ c request) as [[m|e] ev1] eqn:Hd;
      [|done].
    destruct (call_agents _ _ _ request (S k) cs) as [[ms|e'] ev2] eqn:Hrest; [|done].
    injection H as <- <-.
    destruct (IH (S k) ms ev2 Hrest) as (Hlen & Hinv & Hst).
    destruct (dispatch_returns c request m ev1 Hd) as (g & Hg & Hi & Hs & _).
    split; [simpl; by rewrite Hlen|]. split.
    + unfold invoked in *. simpl. rewrite omap_app, Hi. simpl.
      rewrite Hg. f_equal. exact Hinv.
    + unfold turn_stage_events in *. rewrite filter_cons_True by done.
      rewrite filter_app, Hs, filter_cons_True by done. simpl.
      rewrite Nat.add_0_r. do 2 f_equal. rewrite Hst. f_equal.
      apply imap_ext. intros i x _. simpl.
      replace (k + S i)%nat with (S (k + i)) by lia. reflexivity.
Qed.

(** X14. A call that raises ends the loop over the plan: the error is the
    result, the stage opened for the call is not closed, and the calls
    that follow in the plan are not made. *)
Theorem failing_call_ends_plan (request : Request) (k : nat)
    (pre post : list CoordinationRequest) (cr : CoordinationRequest)
    (msgs : list Message) (ev ev_cr : list turn_event) (e : pyerr) :
  agents request k pre = (Ok msgs, ev) →
  dispatch cr request = (Raise e, ev_cr) →
  agents request k (pre ++ cr :: post)
  = (Raise e,
     ev ++ TurnOpenStage (k + length pre)
             ("Call " +:+ agent_name_str (agent_name cr) +:+ " Agent")
        :: ev_cr).
Proof.
  subst agents dispatch. intros Hpre Hcr. revert k msgs ev Hpre.
  induction pre as [|c pre IH]; intros k msgs ev Hpre; simpl in *.
  - injection Hpre as <- <-. rewrite Hcr. by rewrite Nat.add_0_r.
  - destruct (handle_coordination_request _ _ _ c request) as [[m|e1] ev1]; [|done].
    destruct (call_agents _ _ _ request (S k) pre) as [[ms|e'] ev2] eqn:Hrest; [|done].
    injection Hpre as <- <-.
    rewrite (IH (S k) ms ev2 Hrest).
    replace (S k + length pre)%nat with (k + S (length pre))%nat by lia.
    f_equal. simpl. f_equal. by rewrite <- app_assoc.
Qed.

(** The agent messages of a plan that names the general-purpose agent
    only have no custom content. *)
Lemma gpa_only_messages request k agent_calls msgs ev :
  forallb names_gpa agent_calls = true →
  agents request k agent_calls = (Ok msgs, ev) →
  side_channels msgs = [].
Proof.
  subst agents. revert k msgs ev.
  induction agent_calls as [|c cs IH]; intros k msgs ev Hall H; simpl in *.
  - by injection H as <- <-.
  - apply andb_true_iff in Hall as [Hc Hall]. unfold names_gpa in Hc.
    destruct (handle_coordination_request _ _ _ c request) as [[m|e] ev1] eqn:Hd;
      [|done].
    destruct (call_agents _ _ _ request (S k) cs) as [[ms|e'] ev2] eqn:Hrest; [|done].
    injection H as <- <-.
    destruct (dispatch_returns c request m ev1 Hd) as (g & Hg & _ & _ & Hnone).
    destruct (agent_name c); try done. injection Hg as <-.
    unfold side_channels. simpl. rewrite Hnone by done.
    by apply (IH (S k) ms ev2).
Qed.

End Plan.

Lemma calls_in_plan_order_witness :
  let ums := λ (_ : Request) (_ : option string),
               (Ok sample_ums_message, [ChoiceAppendContent "ums"]) in
  let ev := (call_agents (λ _, GPAGateway.sample_reply) ums sample_agent_name_str
               sample_request 1 sample_known_plan).2 in
  invoked ev = [TheGPAGateway; TheUMSAgentGateway]
  ∧ turn_stage_events ev
    = [ TurnOpenStage 1 "Call GPA Agent"; TurnCloseStage 1;
        TurnOpenStage 2 "Call UMS Agent"; TurnCloseStage 2 ].
Proof.
  intros ums ev.
  destruct (calls_in_plan_order (λ _, GPAGateway.sample_reply) ums sample_agent_name_str
              sample_request 1 sample_known_plan _ ev eq_refl) as (_ & _ & ->).
  split; reflexivity.
Defined.

Lemma failing_call_ends_plan_witness :
  let ums := λ (_ : Request) (_ : option string),
               (Raise (ValueError "service down") : result Message,
                [ChoiceAppendContent "ums"]) in
  call_agents (λ _, GPAGateway.sample_reply) ums sample_agent_name_str
    sample_request 1
    ([] ++ {| agent_name := UMS; additional_instructions := None |}
        :: [ {| agent_name := GPA; additional_instructions := None |} ])
  = (Raise (ValueError "service down"),
     [ TurnOpenStage 1 "Call UMS Agent";
       Invoke TheUMSAgentGateway None;
       Within (ChoiceAppendContent "ums") ]).
Proof.
  intros ums.
  rewrite (failing_call_ends_plan (λ _, GPAGateway.sample_reply) ums sample_agent_name_str
             sample_request 1 [] [ {| agent_name := GPA; additional_instructions := None |} ]
             {| agent_name := UMS; additional_instructions := None |}
             [] [] [Invoke TheUMSAgentGateway None; Within (ChoiceAppendContent "ums")]
             (ValueError "service down") eq_refl eq_refl).
  reflexivity.
Defined.

(** X15. A turn whose plan names the general-purpose agent only returns,
    when it returns, an assistant message without custom content: the
    attachments and the state of the agent calls reach the caller through
    the choice, not through the returned message. *)
Theorem gpa_only_turn_has_no_custom_content
    (COORDINATION_REQUEST_SYSTEM_PROMPT FINAL_RESPONSE_SYSTEM_PROMPT : string)
    (gpa_agent synthesis_model : list MessageDict → list Chunk)
    (planning_model : list MessageDict → result (list CoordinationRequest))
    (ums_gateway_response : Request → option string → result Message * list event)
    (model_dump_json : list CoordinationRequest → string)
    (agent_name_str : AgentName → string)
    (request : Request) (agent_calls : list CoordinationRequest) (m : Message) :
  planning_model (prepare_messages request COORDINATION_REQUEST_SYSTEM_PROMPT)
  = Ok agent_calls →
  forallb names_gpa agent_calls = true →
  (handle_request COORDINATION_REQUEST_SYSTEM_PROMPT FINAL_RESPONSE_SYSTEM_PROMPT
     gpa_agent synthesis_model planning_model ums_gateway_response
     model_dump_json agent_name_str request).1 = Ok m →
  msg_role m = ASSISTANT ∧ msg_custom_content m = None.
Proof.
  intros Hplan Hall. unfold handle_request. rewrite Hplan.
  destruct (call_agents _ _ _ request 1 agent_calls) as [[msgs|e] ev] eqn:Hcalls;
    [|done].
  pose proof (gpa_only_messages _ _ _ request 1 agent_calls msgs ev Hall Hcalls) as Hnone.
  unfold final_response.
  destruct (synthesis_messages _ request msgs) as [sent|e]; [|done].
  destruct (read_synthesis _ _) as [content evs].
  rewrite (merge_without_custom_content None msgs Hnone). simpl.
  by intros [= <-].
Qed.

Lemma gpa_only_turn_has_no_custom_content_witness :
  let plan := [ {| agent_name := GPA; additional_instructions := Some "Be brief" |} ] in
  let ums := λ (_ : Request) (_ : option string),
               (Raise IndexError : result Message, [] : list event) in
  (handle_request "PLAN" "ANSWER" (λ _, GPAGateway.scenario_stream)
     (λ _, GPAGateway.sample_reply) (λ _, Ok plan) ums (λ _, "{}")
     sample_agent_name_str sample_request).1
  = Ok {| msg_role := ASSISTANT; msg_content := Some "Hello";
          msg_custom_content := None |}
  ∧ msg_custom_content {| msg_role := ASSISTANT; msg_content := Some "Hello";
                          msg_custom_content := None |} = None.
Proof.
  intros plan ums. split; [reflexivity|].
  apply (gpa_only_turn_has_no_custom_content "PLAN" "ANSWER"
           (λ _, GPAGateway.scenario_stream) (λ _, GPAGateway.sample_reply)
           (λ _, Ok plan) ums (λ _, "{}") sample_agent_name_str sample_request plan);
    reflexivity.
Defined.

End CoordinatorFacts.
